(** * meteo-weather maintenance scripts: Scanner and Rewriter

    Shallow embedding of
      - [fix-test-mocks.py]                (the Scanner), and
      - [frontend/fix-weatherapi-tests.py] (the Rewriter),
    together with the fragment of the Python runtime they rely on:
    [str] as a sequence of code points, the [in] and [endswith] string
    operators, [os.path.join], [os.walk], text-mode [open]/[read]/[write],
    [print], and the subset of [re] syntax the two scripts use. *)

From Stdlib Require Import List NArith Bool Ascii String Arith Lia DecimalString Permutation.
Import ListNotations.

Set Warnings "-register-all".

Local Open Scope N_scope.
Local Open Scope list_scope.

(** ** Python text *)

(** A Python [str] is a sequence of Unicode code points. *)
Definition char := N.
Definition str := list char.

(** ASCII literals of the source, as code points. *)
Definition s2l (s : string) : str := map N_of_ascii (list_ascii_of_string s).

(** [str(n)] / [f"{n}"] for a non-negative [int]. *)
Definition dec (n : nat) : str := s2l (NilEmpty.string_of_uint (Nat.to_uint n)).

Module Py.

(** [s.startswith(p)] *)
Fixpoint startswith (p s : str) : bool :=
  match p, s with
  | [], _ => true
  | a :: p', b :: s' => (a =? b) && startswith p' s'
  | _ :: _, [] => false
  end.

(** [needle in hay] *)
Fixpoint contains (needle hay : str) : bool :=
  startswith needle hay ||
  match hay with
  | [] => false
  | _ :: hay' => contains needle hay'
  end.

(** [s.endswith(suf)] *)
Definition endswith (suf s : str) : bool := startswith (rev suf) (rev s).

(** [s.endswith((suf1, suf2, ...))] *)
Definition endswith_any (sufs : list str) (s : str) : bool :=
  existsb (fun suf => endswith suf s) sufs.

(** [os.path.join(a, b)] on POSIX. *)
Definition os_path_join (a b : str) : str :=
  if startswith [47] b then b
  else match rev a with
       | [] => b
       | last :: _ => if last =? 47 then a ++ b else a ++ 47 :: b
       end.

(** [c.isspace()] on a code point: the characters the [\s] class of a [str]
    pattern matches (no [re.ASCII] flag). *)
Definition is_space (c : char) : bool :=
  ((9 <=? c) && (c <=? 13)) || ((28 <=? c) && (c <=? 32)) ||
  (c =? 133) || (c =? 160) || (c =? 5760) ||
  ((8192 <=? c) && (c <=? 8202)) ||
  (c =? 8232) || (c =? 8233) || (c =? 8239) || (c =? 8287) || (c =? 12288).

(** Text-mode reading with the default [newline=None]: the line endings
    CR LF and CR are delivered as LF. *)
Fixpoint universal_newlines (s : str) : str :=
  match s with
  | [] => []
  | c :: s' =>
      if c =? 13 then
        match s' with
        | d :: s'' =>
            if d =? 10 then 10 :: universal_newlines s''
            else 10 :: universal_newlines s'
        | [] => [10]
        end
      else c :: universal_newlines s'
  end.

End Py.

(** ** The fragment of [re] used by the scripts *)

Module Re.

(** Character sets under a star: [\s] and a negated one-character set. *)
Inductive cclass :=
| CSpace
| CNot (c : char).

(** A compiled pattern is a sequence of literal characters and greedy
    starred character sets. *)
Inductive item :=
| Lit (c : char)
| Star (k : cclass).

Definition regex := list item.

Definition in_class (k : cclass) (c : char) : bool :=
  match k with
  | CSpace => Py.is_space c
  | CNot d => negb (c =? d)
  end.

Definition is_meta (c : char) : bool := existsb (N.eqb c) (s2l ".^$*+?{}[]\|()").
Definition is_quant (c : char) : bool := existsb (N.eqb c) (s2l "*+?{").
Definition is_alnum (c : char) : bool :=
  ((48 <=? c) && (c <=? 57)) || ((65 <=? c) && (c <=? 90)) || ((97 <=? c) && (c <=? 122)).

Definition quantified (rest : str) : bool :=
  match rest with
  | [] => false
  | c :: _ => is_quant c
  end.

Definition cons_item (i : item) (r : option regex) : option regex :=
  match r with
  | Some l => Some (i :: l)
  | None => None
  end.

(** [re.compile] restricted to the syntax the scripts use: an escaped
    punctuation character, [\s*], [[^c]*] and unquantified ordinary
    characters.  Anything else is outside the fragment ([None]). *)
Fixpoint compile (p : str) : option regex :=
  match p with
  | [] => Some []
  | c :: rest =>
      if c =? 92 then                                   (* backslash *)
        match rest with
        | d :: rest1 =>
            if d =? 115 then                            (* \s *)
              match rest1 with
              | q :: rest2 =>
                  if (q =? 42) && negb (quantified rest2)
                  then cons_item (Star CSpace) (compile rest2)
                  else None
              | [] => None
              end
            else if is_alnum d || quantified rest1 then None
            else cons_item (Lit d) (compile rest1)
        | [] => None
        end
      else if c =? 91 then                              (* [^d]* *)
        match rest with
        | n :: d :: b :: q :: rest4 =>
            if (n =? 94) && negb (d =? 92) && negb (d =? 93) && (b =? 93)
               && (q =? 42) && negb (quantified rest4)
            then cons_item (Star (CNot d)) (compile rest4)
            else None
        | _ => None
        end
      else if is_meta c || quantified rest then None
      else cons_item (Lit c) (compile rest)
  end.

(** Backtracking match of a compiled pattern at the start of [s]: the text
    left after the first match in priority order (a star takes as many
    characters as it can and gives them back one at a time). *)
Fixpoint match_here (r : regex) (s : str) : option str :=
  match r with
  | [] => Some s
  | Lit c :: r' =>
      match s with
      | a :: s' => if a =? c then match_here r' s' else None
      | [] => None
      end
  | Star k :: r' =>
      (fix star (s : str) : option str :=
         match s with
         | a :: s' =>
             if in_class k a then
               match star s' with
               | Some t => Some t
               | None => match_here r' s
               end
             else match_here r' s
         | [] => match_here r' s
         end) s
  end.

(** [re.search]: is there a match starting at some position. *)
Fixpoint search_c (r : regex) (s : str) : bool :=
  match match_here r s with
  | Some _ => true
  | None =>
      match s with
      | [] => false
      | _ :: s' => search_c r s'
      end
  end.

(** The scanning loop of [re.sub]: at each position try a match; a match is
    replaced and scanning resumes where it ended; an empty match is replaced
    and the next character copied; otherwise one character is copied. *)
Fixpoint sub_from (fuel : nat) (r : regex) (repl s : str) : str :=
  match fuel with
  | O => s
  | S fuel' =>
      let copy :=
        match s with
        | [] => []
        | a :: s' => a :: sub_from fuel' r repl s'
        end in
      match match_here r s with
      | Some t =>
          if (List.length t <? List.length s)%nat
          then repl ++ sub_from fuel' r repl t
          else repl ++ copy
      | None => copy
      end
  end.

Definition sub_c (r : regex) (repl s : str) : str :=
  sub_from (S (List.length s)) r repl s.

(** [re.search(pattern, s)] as a truth value; [None] when the pattern is
    outside the fragment. *)
Definition search (pattern s : str) : option bool :=
  match compile pattern with
  | Some r => Some (search_c r s)
  | None => None
  end.

(** [re.sub(pattern, repl, s)].  A replacement template containing a
    backslash would be expanded by [re]; the scripts' templates have none. *)
Definition sub (pattern repl s : str) : option str :=
  if existsb (N.eqb 92) repl then None
  else match compile pattern with
       | Some r => Some (sub_c r repl s)
       | None => None
       end.

End Re.

(** ** Files, console and exceptions *)

(** A directory entry as [os.scandir] lists it, in listing order. *)
Inductive dirent :=
| EFile (name : str)
| EDir (name : str) (children : list dirent).

(** What opening a path for reading in text mode gives: the decoded text of
    the file, or the exception [open]/[read] raises (its message). *)
Inductive file_state :=
| FText (raw : str)
| FFail (err : str).

Record world := mkWorld {
  w_listing : str -> option (list dirent);   (* directory trees, by top path *)
  w_store : str -> file_state;               (* file contents, by path *)
  w_write_error : str -> option str;         (* paths that cannot be opened for writing *)
  w_stdout : list str;                       (* one entry per [print] call *)
  w_writes : list (str * str)                (* every completed write, in order *)
}.

Inductive result (A : Type) :=
| Ok (a : A)
| Raise (e : str).
Arguments Ok {A} a.
Arguments Raise {A} e.

Definition IO (A : Type) : Type := world -> result A * world.

Definition ret {A} (a : A) : IO A := fun w => (Ok a, w).

Definition bind {A B} (m : IO A) (k : A -> IO B) : IO B :=
  fun w =>
    match m w with
    | (Ok a, w') => k a w'
    | (Raise e, w') => (Raise e, w')
    end.

Notation "x <- m ;; k" := (bind m (fun x => k))
  (at level 61, m at next level, right associativity).
Notation "m ;; k" := (bind m (fun _ => k))
  (at level 61, right associativity).

(** [try: body except Exception as e: handler(e)] *)
Definition try_ {A} (body : IO A) (handler : str -> IO A) : IO A :=
  fun w =>
    match body w with
    | (Ok a, w') => (Ok a, w')
    | (Raise e, w') => handler e w'
    end.

Definition of_option {A} (o : option A) (e : str) : IO A :=
  fun w =>
    match o with
    | Some a => (Ok a, w)
    | None => (Raise e, w)
    end.

Definition put_line (line : str) (w : world) : world :=
  mkWorld (w_listing w) (w_store w) (w_write_error w) (w_stdout w ++ [line]) (w_writes w).

(** [print(line)] *)
Definition print (line : str) : IO unit := fun w => (Ok tt, put_line line w).

Fixpoint print_each (fmt : str -> str) (l : list str) : IO unit :=
  match l with
  | [] => ret tt
  | x :: l' => print (fmt x) ;; print_each fmt l'
  end.

(** [with open(path, 'r') as f: f.read()] *)
Definition read_text (path : str) : IO str :=
  fun w =>
    match w_store w path with
    | FText raw => (Ok (Py.universal_newlines raw), w)
    | FFail e => (Raise e, w)
    end.

Definition str_eqb (a b : str) : bool :=
  if list_eq_dec N.eq_dec a b then true else false.

Definition put_file (path content : str) (w : world) : world :=
  mkWorld (w_listing w)
          (fun p => if str_eqb p path then FText content else w_store w p)
          (w_write_error w) (w_stdout w)
          (w_writes w ++ [(path, content)]).

(** [with open(path, 'w') as f: f.write(content)] on POSIX, where a written
    line feed stays a line feed. *)
Definition write_text (path content : str) : IO unit :=
  fun w =>
    match w_write_error w path with
    | Some e => (Raise e, w)
    | None => (Ok tt, put_file path content w)
    end.

Definition file_names (es : list dirent) : list str :=
  flat_map (fun e => match e with EFile n => [n] | EDir _ _ => [] end) es.

Definition dir_names (es : list dirent) : list str :=
  flat_map (fun e => match e with EFile _ => [] | EDir n _ => [n] end) es.

(** [os.walk] below one entry of the directory [top]: nothing for a file;
    for a sub-directory its own triple, then the walks of its entries. *)
Fixpoint walk_entry (top : str) (e : dirent) : list (str * list str * list str) :=
  match e with
  | EFile _ => []
  | EDir n children =>
      let path := Py.os_path_join top n in
      (path, dir_names children, file_names children) ::
      flat_map (walk_entry path) children
  end.

(** [os.walk(top)], top-down: the triple of a directory, then the walks of
    its sub-directories in listing order. *)
Definition walk (top : str) (entries : list dirent) : list (str * list str * list str) :=
  (top, dir_names entries, file_names entries) :: flat_map (walk_entry top) entries.

(** [list(os.walk(directory))]; a directory that cannot be listed yields
    nothing ([onerror=None]). *)
Definition os_walk (directory : str) : IO (list (str * list str * list str)) :=
  fun w =>
    match w_listing w directory with
    | Some entries => (Ok (walk directory entries), w)
    | None => (Ok [], w)
    end.

(** ** fix-test-mocks.py *)

Module Scanner.

Definition is_test_file (file : str) : bool :=
  Py.endswith_any [s2l ".test.js"; s2l ".test.jsx"] file.

(** Lines 19-23: the paths of the test files, in walk order. *)
Definition collect (walked : list (str * list str * list str)) : list str :=
  flat_map (fun t => match t with
                     | (root, _, files) =>
                         map (Py.os_path_join root) (filter is_test_file files)
                     end) walked.

Definition marker : str := s2l "global.fetch".
Definition headers_marker : str := s2l "headers:".
Definition legacy_pattern : str := s2l "Promise\.resolve\(\s*\{[^}]*json:".

Definition needs_fix_lines (filepath : str) : list str :=
  [ 10060 :: 32 :: filepath; s2l "   Found fetch mocks without headers" ].

Definition compliant_lines (filepath : str) : list str :=
  [ 9989 :: 32 :: filepath; s2l "   Already has proper fetch mocks" ].

Definition warning_line (filepath e : str) : str :=
  9888 :: 65039 :: s2l "  Error reading " ++ filepath ++ s2l ": " ++ e.

(** Lines 31-46: the body of the loop over the test files. *)
Definition check_file (filepath : str) (files_needing_fix : list str) : IO (list str) :=
  try_
    (content <- read_text filepath ;;
     if Py.contains marker content then
       old <- of_option (Re.search legacy_pattern content) (s2l "re.error") ;;
       if old && negb (Py.contains headers_marker content) then
         print_each (fun l => l) (needs_fix_lines filepath) ;;
         ret (files_needing_fix ++ [filepath])
       else
         print_each (fun l => l) (compliant_lines filepath) ;;
         ret files_needing_fix
     else ret files_needing_fix)
    (fun e => print (warning_line filepath e) ;; ret files_needing_fix).

(** Lines 30-46. *)
Fixpoint check_files (test_files files_needing_fix : list str) : IO (list str) :=
  match test_files with
  | [] => ret files_needing_fix
  | filepath :: rest =>
      acc <- check_file filepath files_needing_fix ;;
      check_files rest acc
  end.

Definition found_line (n : nat) : str :=
  s2l "Found " ++ dec n ++ s2l " test files" ++ [10].

(** Lines 48-51: what is printed once the loop is over. *)
Definition summary_lines (files_needing_fix : list str) : list str :=
  (10 :: repeat 61 80) ::
  (s2l "Files needing fix: " ++ dec (List.length files_needing_fix)) ::
  map (fun f => s2l "  - " ++ f) files_needing_fix.

Definition find_test_files_with_fetch_mocks (directory : str) : IO unit :=
  walked <- os_walk directory ;;
  let test_files := collect walked in
  print (found_line (List.length test_files)) ;;
  files_needing_fix <- check_files test_files [] ;;
  print_each (fun l => l) (summary_lines files_needing_fix).

Definition frontend_dir : str :=
  s2l "/Users/michaelbuckingham/Documents/meteo-app/frontend/src".

Definition main : IO unit := find_test_files_with_fetch_mocks frontend_dir.

End Scanner.

(** ** frontend/fix-weatherapi-tests.py *)

Module Rewriter.

Definition test_file : str :=
  s2l "/Users/michaelbuckingham/Documents/meteo-app/frontend/src/services/weatherApi.test.js".

Definition replacements : list (str * str) :=
  [ (s2l "expect\(apiRequest\)\.toHaveBeenCalledWith\('/weather/hourly/Boston', \{\s*params: \{ hours: 48 \},\s*\}\);",
     s2l "expect(apiRequest).toHaveBeenCalledWith('/weather/hourly/Boston?hours=48', { method: 'GET' });");
    (s2l "expect\(apiRequest\)\.toHaveBeenCalledWith\('/weather/hourly/Boston', \{\s*params: \{ hours: 72 \},\s*\}\);",
     s2l "expect(apiRequest).toHaveBeenCalledWith('/weather/hourly/Boston?hours=72', { method: 'GET' });");
    (s2l "expect\(apiRequest\)\.toHaveBeenCalledWith\('/locations', \{\s*params: \{ page: 1, limit: 50 \},\s*\}\);",
     s2l "expect(apiRequest).toHaveBeenCalledWith('/locations?page=1&limit=50', { method: 'GET' });");
    (s2l "expect\(apiRequest\)\.toHaveBeenCalledWith\('/locations', \{\s*params: \{ page: 2, limit: 25 \},\s*\}\);",
     s2l "expect(apiRequest).toHaveBeenCalledWith('/locations?page=2&limit=25', { method: 'GET' });");
    (s2l "expect\(apiRequest\)\.toHaveBeenCalledWith\('/locations/geocode', \{\s*params: \{ address: 'London, UK', limit: 10 \},\s*\}\);",
     s2l "expect(apiRequest).toHaveBeenCalledWith('/locations/geocode?address=London%2C+UK&limit=10', { method: 'GET' });");
    (s2l "expect\(apiRequest\)\.toHaveBeenCalledWith\('/locations/geocode', \{\s*params: \{ address: 'Paris, France', limit: 5 \},\s*\}\);",
     s2l "expect(apiRequest).toHaveBeenCalledWith('/locations/geocode?address=Paris%2C+France&limit=5', { method: 'GET' });");
    (s2l "expect\(apiRequest\)\.toHaveBeenCalledWith\('/locations/reverse', \{\s*params: \{ lat: 51\.5074, lon: -0\.1278 \},\s*\}\);",
     s2l "expect(apiRequest).toHaveBeenCalledWith('/locations/reverse?lat=51.5074&lon=-0.1278', { method: 'GET' });");
    (s2l "expect\(apiRequest\)\.toHaveBeenCalledWith\('/locations/reverse', \{\s*params: \{ lat: -33\.8688, lon: 151\.2093 \},\s*\}\);",
     s2l "expect(apiRequest).toHaveBeenCalledWith('/locations/reverse?lat=-33.8688&lon=151.2093', { method: 'GET' });");
    (s2l "expect\(apiRequest\)\.toHaveBeenCalledWith\('/locations/popular'\);",
     s2l "expect(apiRequest).toHaveBeenCalledWith('/locations/popular', { method: 'GET' });");
    (s2l "expect\(apiRequest\)\.toHaveBeenCalledWith\('/health'\);",
     s2l "expect(apiRequest).toHaveBeenCalledWith('/health', { method: 'GET' });") ].

(** Lines 56-57: each rule rewrites the text the previous rules left.  The
    flags [re.MULTILINE | re.DOTALL] change the meaning of [^], [$] and [.]
    only, which no pattern of the list uses. *)
Fixpoint apply_rules (rules : list (str * str)) (content : str) : option str :=
  match rules with
  | [] => Some content
  | (pattern, replacement) :: rest =>
      match Re.sub pattern replacement content with
      | Some content' => apply_rules rest content'
      | None => None
      end
  end.

Definition transform (content : str) : option str := apply_rules replacements content.

Definition report_lines : list str :=
  [ 9989 :: s2l " Fixed weatherApi.test.js expectations!";
    s2l "Applied " ++ dec (List.length replacements) ++ s2l " replacements" ].

Definition main : IO unit :=
  content <- read_text test_file ;;
  content' <- of_option (transform content) (s2l "re.error") ;;
  write_text test_file content' ;;
  print_each (fun l => l) report_lines.

End Rewriter.

(** ** Specification-level notions *)

(** [needle] is a substring of [hay]. *)
Definition occurs (needle hay : str) : Prop :=
  exists u v, hay = u ++ needle ++ v.

(** The strings a compiled pattern denotes. *)
Inductive lang : Re.regex -> str -> Prop :=
| lang_nil : lang [] []
| lang_lit c r m : lang r m -> lang (Re.Lit c :: r) (c :: m)
| lang_stop k r m : lang r m -> lang (Re.Star k :: r) m
| lang_more k r a m :
    Re.in_class k a = true -> lang (Re.Star k :: r) m -> lang (Re.Star k :: r) (a :: m).

(** Some substring of [s] is denoted by [r]. *)
Definition matches_in (r : Re.regex) (s : str) : Prop :=
  exists u m v, s = u ++ m ++ v /\ lang r m.

(** The legacy mock shape the Scanner looks for: [Promise.resolve(], white
    space, an opening brace, text without a closing brace, then [json:]. *)
Definition legacy_shape (content : str) : Prop :=
  exists u ws mid v,
    content = u ++ s2l "Promise.resolve(" ++ ws ++ s2l "{" ++ mid ++ s2l "json:" ++ v
    /\ forallb Py.is_space ws = true
    /\ ~ In 125 mid.

Definition all_space (ws : str) : Prop := forallb Py.is_space ws = true.

(** The Rewriter's rules with their patterns compiled. *)
Fixpoint compile_rules (rules : list (str * str)) : option (list (Re.regex * str)) :=
  match rules with
  | [] => Some []
  | (pattern, replacement) :: rest =>
      if existsb (N.eqb 92) replacement then None
      else match Re.compile pattern, compile_rules rest with
           | Some r, Some l => Some ((r, replacement) :: l)
           | _, _ => None
           end
  end.

Fixpoint apply_c (rules : list (Re.regex * str)) (content : str) : str :=
  match rules with
  | [] => content
  | (r, replacement) :: rest => apply_c rest (Re.sub_c r replacement content)
  end.

Definition crules : list (Re.regex * str) :=
  match compile_rules Rewriter.replacements with
  | Some l => l
  | None => []
  end.

(** *** Shapes of the Rewriter's patterns and replacements

    Every pattern of the list starts with the literal [ex] of [expect] and
    can match no further [x]; no match ends in [e]; every replacement has the
    same form.  The proofs about [re.sub] below rest on these facts only. *)

Definition ce : char := 101.
Definition cx : char := 120.

Definition nox (m : str) : bool := forallb (fun c => negb (c =? cx)) m.

Definition starts_ex (s : str) : bool :=
  match s with
  | a :: b :: _ => (a =? ce) && (b =? cx)
  | _ => false
  end.

Definition shaped (m : str) : bool :=
  match m with
  | a :: b :: m' => (a =? ce) && (b =? cx) && nox m' && negb (last m' cx =? ce)
  | _ => false
  end.

Definition item_nox (i : Re.item) : bool :=
  match i with
  | Re.Lit c => negb (c =? cx)
  | Re.Star k => negb (Re.in_class k cx)
  end.

(** Every string of the pattern ends in a character other than [e] (or the
    pattern and the string are empty). *)
Fixpoint ends_ok (r : Re.regex) : bool :=
  match r with
  | [] => true
  | i :: r' =>
      match r' with
      | [] => match i with
              | Re.Lit c => negb (c =? ce)
              | Re.Star _ => false
              end
      | _ :: _ => ends_ok r'
      end
  end.

Definition pshaped (r : Re.regex) : bool :=
  match r with
  | Re.Lit a :: Re.Lit b :: r' =>
      (a =? ce) && (b =? cx) && forallb item_nox r' && ends_ok r'
  | _ => false
  end.

Definition cclass_eqb (k k' : Re.cclass) : bool :=
  match k, k' with
  | Re.CSpace, Re.CSpace => true
  | Re.CNot a, Re.CNot b => a =? b
  | _, _ => false
  end.

Definition next_not_in (k : Re.cclass) (r : Re.regex) : bool :=
  match r with
  | Re.Lit c :: _ => negb (Re.in_class k c)
  | _ => false
  end.

(** A sufficient test that two patterns never match at the same position. *)
Fixpoint clash (p q : Re.regex) : bool :=
  match p, q with
  | Re.Lit a :: p', Re.Lit b :: q' => if a =? b then clash p' q' else true
  | Re.Star k :: p', Re.Star k' :: q' =>
      cclass_eqb k k' && next_not_in k p' && next_not_in k q' && clash p' q'
  | _, _ => false
  end.

Definition lits (m : str) : Re.regex := map Re.Lit m.

(** The Scanner's pattern, compiled. *)
Definition legacy_c : Re.regex :=
  lits (s2l "Promise.resolve(") ++
  Re.Star Re.CSpace :: Re.Lit 123 :: Re.Star (Re.CNot 125) :: lits (s2l "json:").

(** Rule [k] of an ordered list may be applied after the rules before it and
    before the rules after it without either disturbing the other. *)
Fixpoint splits_ok (pre todo : list (Re.regex * str)) : bool :=
  match todo with
  | [] => true
  | (p, r) :: post =>
      forallb (fun q => clash (fst q) p) pre &&
      forallb (fun q => clash (fst q) (lits r)) post &&
      splits_ok (pre ++ [(p, r)]) post
  end.

Definition rules_ok (rules : list (Re.regex * str)) : bool :=
  forallb (fun q => pshaped (fst q) && shaped (snd q)) rules &&
  forallb (fun q => forallb (fun q' => clash (fst q) (lits (snd q'))) rules) rules &&
  splits_ok [] rules.

(** *** Runs, seen from outside *)

Definition put_lines (lines : list str) (w : world) : world :=
  fold_left (fun w' l => put_line l w') lines w.

(** The test files [os.walk] finds below [directory], in the order the
    Scanner visits them. *)
Definition test_files (w : world) (directory : str) : list str :=
  match w_listing w directory with
  | Some entries => Scanner.collect (walk directory entries)
  | None => []
  end.

(** Does the Scanner put the file at [filepath] on its needs-fix list. *)
Definition needs_fix (w : world) (filepath : str) : bool :=
  match w_store w filepath with
  | FText raw =>
      let content := Py.universal_newlines raw in
      Py.contains Scanner.marker content &&
      (Re.search_c legacy_c content && negb (Py.contains Scanner.headers_marker content))
  | FFail _ => false
  end.

(** What the Scanner prints for the file at [filepath]. *)
Definition file_lines (w : world) (filepath : str) : list str :=
  match w_store w filepath with
  | FText raw =>
      let content := Py.universal_newlines raw in
      if Py.contains Scanner.marker content then
        if Re.search_c legacy_c content && negb (Py.contains Scanner.headers_marker content)
        then Scanner.needs_fix_lines filepath
        else Scanner.compliant_lines filepath
      else []
  | FFail e => [Scanner.warning_line filepath e]
  end.

(** A text with one instance of each shape the Rewriter knows, one per line. *)
Definition sample_text : str :=
  s2l "expect(apiRequest).toHaveBeenCalledWith('/weather/hourly/Boston', { params: { hours: 48 }, });" ++ 10 ::
  s2l "expect(apiRequest).toHaveBeenCalledWith('/weather/hourly/Boston', { params: { hours: 72 }, });" ++ 10 ::
  s2l "expect(apiRequest).toHaveBeenCalledWith('/locations', { params: { page: 1, limit: 50 }, });" ++ 10 ::
  s2l "expect(apiRequest).toHaveBeenCalledWith('/locations', { params: { page: 2, limit: 25 }, });" ++ 10 ::
  s2l "expect(apiRequest).toHaveBeenCalledWith('/locations/geocode', { params: { address: 'London, UK', limit: 10 }, });" ++ 10 ::
  s2l "expect(apiRequest).toHaveBeenCalledWith('/locations/geocode', { params: { address: 'Paris, France', limit: 5 }, });" ++ 10 ::
  s2l "expect(apiRequest).toHaveBeenCalledWith('/locations/reverse', { params: { lat: 51.5074, lon: -0.1278 }, });" ++ 10 ::
  s2l "expect(apiRequest).toHaveBeenCalledWith('/locations/reverse', { params: { lat: -33.8688, lon: 151.2093 }, });" ++ 10 ::
  s2l "expect(apiRequest).toHaveBeenCalledWith('/locations/popular');" ++ 10 ::
  s2l "expect(apiRequest).toHaveBeenCalledWith('/health');".

(** A world whose target file has one CR LF line ending and none of the
    shapes the Rewriter knows. *)
Definition crlf_raw : str := [97; 13; 10; 98].

Definition crlf_world : world :=
  mkWorld (fun _ => None)
          (fun p => if str_eqb p Rewriter.test_file then FText crlf_raw
                    else FFail (s2l "No such file or directory"))
          (fun _ => None) [] [].

(** A small tree to run the Scanner on: four test files, one of them with
    the legacy mock, one compliant, one without mocks and one unreadable. *)
Definition scan_dir : str := s2l "/r".

Definition scan_world : world :=
  mkWorld
    (fun d => if str_eqb d scan_dir
              then Some [ EFile (s2l "a.test.js");
                          EDir (s2l "sub") [EFile (s2l "b.test.jsx"); EFile (s2l "c.js")];
                          EFile (s2l "d.test.js");
                          EFile (s2l "e.test.js") ]
              else None)
    (fun p =>
       if str_eqb p (s2l "/r/a.test.js")
       then FText (s2l "global.fetch = vi.fn(() => Promise.resolve({ ok: true, json: () => data }))")
       else if str_eqb p (s2l "/r/sub/b.test.jsx")
       then FText (s2l "global.fetch = vi.fn(() => Promise.resolve({ headers: h, json: () => data }))")
       else if str_eqb p (s2l "/r/d.test.js")
       then FText (s2l "it('renders', () => {})")
       else FFail (s2l "[Errno 13] Permission denied"))
    (fun _ => None) [] [].

(** A mock whose nested object closes before the [json] field. *)
Definition nested_mock : str :=
  s2l "global.fetch = vi.fn(() => Promise.resolve({ ok: true, meta: { a: 1 }, json: () => data }))".

(** A world in which every file holds the same text without any shape. *)
Definition plain_text : str := s2l "it('works', () => {});".

Definition plain_world : world :=
  mkWorld (fun _ => None) (fun _ => FText plain_text) (fun _ => None) [] [].

(** *** Further notions *)

(** [file_in top entries root name]: the tree [entries] of the directory
    [top] has, at any depth, a directory of path [root] that lists a file
    called [name]. *)
Inductive file_in : str -> list dirent -> str -> str -> Prop :=
| file_here top entries name :
    In (EFile name) entries -> file_in top entries top name
| file_below top entries d children root name :
    In (EDir d children) entries ->
    file_in (Py.os_path_join top d) children root name ->
    file_in top entries root name.

(** Every star of the pattern is followed by a literal outside its set, so
    that the pattern reads a text in one way only. *)
Fixpoint det (r : Re.regex) : bool :=
  match r with
  | [] => true
  | Re.Lit _ :: r' => det r'
  | Re.Star k :: r' => next_not_in k r' && det r'
  end.

(** The literal every pattern of the Rewriter starts with. *)
Definition call_prefix : str := s2l "expect(apiRequest).toHaveBeenCalledWith('".



(** Two rules that may be applied in either order: their patterns never
    match at the same position and neither pattern matches the other rule's
    replacement. *)
Definition commuting (q q' : Re.regex * str) : bool :=
  clash (fst q) (fst q') && clash (fst q) (lits (snd q')) && clash (fst q') (lits (snd q)).

Fixpoint pairs_commute (rules : list (Re.regex * str)) : bool :=
  match rules with
  | [] => true
  | q :: rest => forallb (commuting q) rest && pairs_commute rest
  end.

(** * Properties *)

(** ** Python string operators *)

Lemma startswith_spec (p s : str) :
  Py.startswith p s = true <-> exists t, s = p ++ t.
Proof.
  revert s; induction p as [|a p IH]; intros s; simpl.
  - split; [intros _; now exists s | reflexivity].
  - destruct s as [|b s].
    + split; [discriminate | intros [t H]; discriminate].
    + rewrite andb_true_iff, N.eqb_eq, IH. split.
      * intros [-> [t ->]]. now exists t.
      * intros [t H]. injection H as -> ->. split; [reflexivity | now exists t].
Qed.

Lemma contains_spec (needle hay : str) :
  Py.contains needle hay = true <-> occurs needle hay.
Proof.
  unfold occurs. induction hay as [|b hay IH]; simpl.
  - rewrite orb_false_r, startswith_spec. split.
    + intros [t H]. exists [], t. exact H.
    + intros [u [v H]]. destruct u; [now exists v | discriminate].
  - rewrite orb_true_iff, startswith_spec, IH. split.
    + intros [[t H] | [u [v H]]].
      * exists [], t. exact H.
      * exists (b :: u), v. simpl. now rewrite H.
    + intros [[|c u] [v H]].
      * left. now exists v.
      * right. injection H as _ H. now exists u, v.
Qed.

Lemma contains_false (needle hay : str) :
  Py.contains needle hay = false <-> ~ occurs needle hay.
Proof.
  rewrite <- contains_spec. destruct (Py.contains needle hay); split; congruence.
Qed.

Lemma contains_app_r (needle a b : str) :
  Py.contains needle b = true -> Py.contains needle (a ++ b) = true.
Proof.
  rewrite !contains_spec. intros [u [v ->]]. exists (a ++ u), v.
  now rewrite <- app_assoc.
Qed.

Lemma contains_prefix (needle t : str) : Py.contains needle (needle ++ t) = true.
Proof. apply contains_spec. now exists [], t. Qed.

(** ** The matcher against the denotation of patterns *)

Lemma match_star_eq (k : Re.cclass) (r : Re.regex) (s : str) :
  Re.match_here (Re.Star k :: r) s =
  match s with
  | a :: s' =>
      if Re.in_class k a then
        match Re.match_here (Re.Star k :: r) s' with
        | Some t => Some t
        | None => Re.match_here r s
        end
      else Re.match_here r s
  | [] => Re.match_here r s
  end.
Proof. destruct s; reflexivity. Qed.

Lemma match_here_sound (r : Re.regex) :
  forall s t, Re.match_here r s = Some t -> exists m, s = m ++ t /\ lang r m.
Proof.
  induction r as [|i r IH]; intros s t H.
  - injection H as ->. exists []. split; [reflexivity | constructor].
  - destruct i as [c | k].
    + simpl in H. destruct s as [|a s]; [discriminate|].
      destruct (N.eqb_spec a c) as [->|]; [|discriminate].
      destruct (IH _ _ H) as [m [-> Hm]].
      exists (c :: m). split; [reflexivity | now constructor].
    + revert t H. induction s as [|a s IHs]; intros t H; rewrite match_star_eq in H.
      * destruct (IH _ _ H) as [m [E Hm]]. exists m. split; [exact E | now constructor].
      * destruct (Re.in_class k a) eqn:Ek.
        -- destruct (Re.match_here (Re.Star k :: r) s) as [t'|] eqn:Es.
           ++ injection H as ->. destruct (IHs _ eq_refl) as [m [-> Hm]].
              exists (a :: m). split; [reflexivity | now constructor].
           ++ destruct (IH _ _ H) as [m [E Hm]]. exists m. split; [exact E | now constructor].
        -- destruct (IH _ _ H) as [m [E Hm]]. exists m. split; [exact E | now constructor].
Qed.

Lemma match_star_stop (k : Re.cclass) (r : Re.regex) (s : str) :
  Re.match_here r s <> None -> Re.match_here (Re.Star k :: r) s <> None.
Proof.
  intros H. rewrite match_star_eq. destruct s as [|a s]; [exact H|].
  destruct (Re.in_class k a); [|exact H].
  destruct (Re.match_here (Re.Star k :: r) s); [discriminate | exact H].
Qed.

Lemma match_here_complete (r : Re.regex) (m : str) :
  lang r m -> forall t, Re.match_here r (m ++ t) <> None.
Proof.
  induction 1 as [| c r m _ IH | k r m _ IH | k r a m Ha _ IH]; intros t.
  - simpl. discriminate.
  - simpl. rewrite N.eqb_refl. apply IH.
  - apply match_star_stop, IH.
  - change ((a :: m) ++ t) with (a :: (m ++ t)). rewrite match_star_eq, Ha.
    specialize (IH t). destruct (Re.match_here (Re.Star k :: r) (m ++ t)); [discriminate | contradiction].
Qed.

Lemma match_here_suffix (r : Re.regex) (s t : str) :
  Re.match_here r s = Some t -> (List.length t <= List.length s)%nat.
Proof.
  intros H. destruct (match_here_sound _ _ _ H) as [m [-> _]].
  rewrite length_app. lia.
Qed.

Lemma search_c_spec (r : Re.regex) (s : str) :
  Re.search_c r s = true <-> matches_in r s.
Proof.
  unfold matches_in. induction s as [|a s IH]; simpl.
  - destruct (Re.match_here r []) as [t|] eqn:E.
    + split; [intros _ | reflexivity].
      destruct (match_here_sound _ _ _ E) as [m [Em Hm]].
      exists [], m, t. now split.
    + split; [discriminate|]. intros [u [m [v [E' Hm]]]].
      destruct u; [|discriminate]. simpl in E'.
      exfalso. apply (match_here_complete _ _ Hm v). now rewrite <- E'.
  - destruct (Re.match_here r (a :: s)) as [t|] eqn:E.
    + split; [intros _ | reflexivity].
      destruct (match_here_sound _ _ _ E) as [m [Em Hm]].
      exists [], m, t. now split.
    + rewrite IH. split.
      * intros [u [m [v [-> Hm]]]]. exists (a :: u), m, v. now split.
      * intros [[|b u] [m [v [E' Hm]]]].
        -- exfalso. apply (match_here_complete _ _ Hm v). simpl in E'. now rewrite <- E'.
        -- injection E' as _ ->. now exists u, m, v.
Qed.

Lemma search_c_false (r : Re.regex) (s : str) :
  Re.search_c r s = false <-> ~ matches_in r s.
Proof.
  rewrite <- search_c_spec. destruct (Re.search_c r s); split; congruence.
Qed.

Lemma search_c_cons (r : Re.regex) (a : char) (s : str) :
  Re.search_c r (a :: s) = true <-> Re.match_here r (a :: s) <> None \/ Re.search_c r s = true.
Proof.
  simpl. destruct (Re.match_here r (a :: s)); split; intros H.
  - left; discriminate.
  - reflexivity.
  - now right.
  - destruct H as [H | H]; [contradiction | exact H].
Qed.

Lemma search_c_app_r (r : Re.regex) (a s : str) :
  Re.search_c r s = true -> Re.search_c r (a ++ s) = true.
Proof.
  intros H. induction a as [|c a IH]; [exact H|].
  simpl. destruct (Re.match_here r (c :: a ++ s)); [reflexivity | exact IH].
Qed.

Lemma search_c_here (r : Re.regex) (s : str) :
  Re.match_here r s <> None -> Re.search_c r s = true.
Proof.
  intros H. destruct s; simpl; destruct (Re.match_here r _); congruence.
Qed.

(** Inversion of the denotation. *)

Lemma lang_lit_inv (c : char) (r : Re.regex) (m : str) :
  lang (Re.Lit c :: r) m -> exists m', m = c :: m' /\ lang r m'.
Proof. intros H. inversion H; subst. eauto. Qed.

Lemma lang_star_inv (k : Re.cclass) (r : Re.regex) (m : str) :
  lang (Re.Star k :: r) m ->
  exists ws m', m = ws ++ m' /\ forallb (Re.in_class k) ws = true /\ lang r m'.
Proof.
  intros H. remember (Re.Star k :: r) as q eqn:Eq.
  induction H as [| | k' r' m Hm _ | k' r' a m Ha Hm IH]; try discriminate.
  - injection Eq as -> ->. exists [], m. now repeat split.
  - destruct (IH Eq) as [ws [m' [-> [Hws Hm']]]]. injection Eq as -> ->.
    exists (a :: ws), m'. repeat split; [|exact Hm'].
    simpl. now rewrite Ha.
Qed.

Lemma lang_star_intro (k : Re.cclass) (r : Re.regex) (ws m : str) :
  forallb (Re.in_class k) ws = true -> lang r m -> lang (Re.Star k :: r) (ws ++ m).
Proof.
  intros Hws Hm. induction ws as [|a ws IH]; simpl.
  - now constructor.
  - simpl in Hws. apply andb_true_iff in Hws as [Ha Hws]. apply lang_more; auto.
Qed.

Lemma lang_lits_app (l : str) (r : Re.regex) (m : str) :
  lang (lits l ++ r) m <-> exists m', m = l ++ m' /\ lang r m'.
Proof.
  revert m. induction l as [|c l IH]; intros m; simpl.
  - split; [intros H; now exists m | intros [m' [-> H]]; exact H].
  - split.
    + intros H. apply lang_lit_inv in H as [m1 [-> H]].
      apply IH in H as [m' [-> H]]. now exists m'.
    + intros [m' [-> H]]. constructor. apply IH. now exists m'.
Qed.

Lemma lang_lits (l m : str) : lang (lits l) m <-> m = l.
Proof.
  rewrite <- (app_nil_r (lits l)), lang_lits_app. split.
  - intros [m' [-> H]]. inversion H. now rewrite app_nil_r.
  - intros ->. exists []. split; [now rewrite app_nil_r | constructor].
Qed.

(** ** The Scanner's pattern *)

Lemma legacy_compiles : Re.compile Scanner.legacy_pattern = Some legacy_c.
Proof. reflexivity. Qed.

Lemma forallb_cnot (c : char) (m : str) :
  forallb (Re.in_class (Re.CNot c)) m = true <-> ~ In c m.
Proof.
  induction m as [|a m IH]; simpl.
  - split; [intros _ [] | reflexivity].
  - rewrite andb_true_iff, IH, negb_true_iff, N.eqb_neq. split.
    + intros [Ha Hm] [E | H]; [now subst | contradiction].
    + intros H. split; [intros E | intros H']; apply H; [left | right]; auto.
Qed.

Lemma legacy_lang (m : str) :
  lang legacy_c m <->
  exists ws mid,
    m = s2l "Promise.resolve(" ++ ws ++ s2l "{" ++ mid ++ s2l "json:"
    /\ forallb Py.is_space ws = true /\ ~ In 125 mid.
Proof.
  unfold legacy_c. rewrite lang_lits_app. split.
  - intros [m1 [-> H]].
    apply lang_star_inv in H as [ws [m2 [-> [Hws H]]]].
    apply lang_lit_inv in H as [m3 [-> H]].
    apply lang_star_inv in H as [mid [m4 [-> [Hmid H]]]].
    apply lang_lits in H as ->.
    exists ws, mid. repeat split; [exact Hws | now apply forallb_cnot].
  - intros [ws [mid [-> [Hws Hmid]]]].
    eexists. split; [reflexivity|].
    apply lang_star_intro; [exact Hws|].
    change (s2l "{" ++ mid ++ s2l "json:") with (123 :: (mid ++ s2l "json:")).
    constructor. apply lang_star_intro; [now apply forallb_cnot | now apply lang_lits].
Qed.

Lemma legacy_search (content : str) :
  Re.search Scanner.legacy_pattern content = Some (Re.search_c legacy_c content).
Proof. unfold Re.search. now rewrite legacy_compiles. Qed.

Lemma legacy_search_spec (content : str) :
  Re.search_c legacy_c content = true <-> legacy_shape content.
Proof.
  rewrite search_c_spec. unfold matches_in, legacy_shape. split.
  - intros [u [m [v [-> H]]]]. apply legacy_lang in H as [ws [mid [-> [Hws Hmid]]]].
    exists u, ws, mid, v. repeat split; auto.
    now rewrite <- !app_assoc.
  - intros [u [ws [mid [v [-> [Hws Hmid]]]]]].
    exists u, (s2l "Promise.resolve(" ++ ws ++ s2l "{" ++ mid ++ s2l "json:"), v. split.
    + now rewrite <- !app_assoc.
    + apply legacy_lang. now exists ws, mid.
Qed.

(** ** The scanning loop of [re.sub] *)

Lemma sub_from_fuel (r : Re.regex) (repl : str) :
  forall f1 f2 s,
    (List.length s < f1)%nat -> (List.length s < f2)%nat ->
    Re.sub_from f1 r repl s = Re.sub_from f2 r repl s.
Proof.
  induction f1 as [|f1 IH]; intros f2 s H1 H2; [lia|].
  destruct f2 as [|f2]; [lia|]. simpl.
  destruct (Re.match_here r s) as [t|] eqn:E.
  - destruct (Nat.ltb_spec (List.length t) (List.length s)) as [Hlt|Hge].
    + f_equal. apply IH; lia.
    + f_equal. destruct s as [|a s]; [reflexivity|].
      f_equal. simpl in H1, H2. apply IH; lia.
  - destruct s as [|a s]; [reflexivity|].
    f_equal. simpl in H1, H2. apply IH; lia.
Qed.

Lemma sub_from_S (f : nat) (r : Re.regex) (repl s : str) :
  Re.sub_from (S f) r repl s =
  match Re.match_here r s with
  | Some t =>
      if (List.length t <? List.length s)%nat
      then repl ++ Re.sub_from f r repl t
      else repl ++ match s with
                   | [] => []
                   | a :: s' => a :: Re.sub_from f r repl s'
                   end
  | None =>
      match s with
      | [] => []
      | a :: s' => a :: Re.sub_from f r repl s'
      end
  end.
Proof. reflexivity. Qed.

Lemma sub_c_nil (r : Re.regex) (repl : str) :
  Re.match_here r [] = None -> Re.sub_c r repl [] = [].
Proof. intros H. unfold Re.sub_c. now rewrite sub_from_S, H. Qed.

Lemma sub_c_skip (r : Re.regex) (repl : str) (a : char) (s : str) :
  Re.match_here r (a :: s) = None ->
  Re.sub_c r repl (a :: s) = a :: Re.sub_c r repl s.
Proof.
  intros H. unfold Re.sub_c. rewrite sub_from_S, H. reflexivity.
Qed.

Lemma sub_c_match (r : Re.regex) (repl s t : str) :
  Re.match_here r s = Some t -> (List.length t < List.length s)%nat ->
  Re.sub_c r repl s = repl ++ Re.sub_c r repl t.
Proof.
  intros H Hlt. unfold Re.sub_c. rewrite sub_from_S, H.
  apply Nat.ltb_lt in Hlt as Hb. rewrite Hb.
  f_equal. apply sub_from_fuel; lia.
Qed.

(** A text in which the pattern does not occur is left as it is. *)
Lemma sub_c_no_match (r : Re.regex) (repl s : str) :
  Re.search_c r s = false -> Re.sub_c r repl s = s.
Proof.
  induction s as [|a s IH]; simpl; intros H.
  - destruct (Re.match_here r []) eqn:E; [discriminate|]. now apply sub_c_nil.
  - destruct (Re.match_here r (a :: s)) eqn:E; [discriminate|].
    rewrite sub_c_skip by exact E. now rewrite IH.
Qed.

(** ** Shapes *)

Lemma shaped_inv (m : str) :
  shaped m = true ->
  exists m', m = ce :: cx :: m' /\ nox m' = true /\ last m' cx <> ce.
Proof.
  destruct m as [|a [|b m']]; try discriminate. simpl.
  rewrite !andb_true_iff, negb_true_iff, !N.eqb_eq, N.eqb_neq.
  intros [[[-> ->] H1] H2]. now exists m'.
Qed.

Lemma pshaped_inv (r : Re.regex) :
  pshaped r = true ->
  exists r', r = Re.Lit ce :: Re.Lit cx :: r' /\ forallb item_nox r' = true /\ ends_ok r' = true.
Proof.
  destruct r as [|[a|] [|[b|] r']]; try discriminate. simpl.
  rewrite !andb_true_iff, !N.eqb_eq.
  intros [[[-> ->] H1] H2]. now exists r'.
Qed.

Lemma lang_nox (r : Re.regex) (m : str) :
  forallb item_nox r = true -> lang r m -> nox m = true.
Proof.
  intros Hr H. induction H as [| c r m _ IH | k r m _ IH | k r a m Ha _ IH]; simpl in *.
  - reflexivity.
  - apply andb_true_iff in Hr as [Hc Hr]. rewrite Hc. now apply IH.
  - apply andb_true_iff in Hr as [_ Hr]. now apply IH.
  - rewrite IH by exact Hr. apply andb_true_iff in Hr as [Hk _].
    apply negb_true_iff in Hk.
    destruct (N.eqb_spec a cx) as [->|]; [congruence | reflexivity].
Qed.

Lemma lang_ends (r : Re.regex) (m : str) :
  ends_ok r = true -> lang r m ->
  (r = [] /\ m = []) \/ (exists m0 c, m = m0 ++ [c] /\ c <> ce).
Proof.
  intros Hr H. induction H as [| c r m Hm IH | k r m Hm IH | k r a m Ha Hm IH].
  - now left.
  - right. destruct r as [|i r].
    + inversion Hm; subst. exists [], c. split; [reflexivity|].
      simpl in Hr. now apply negb_true_iff, N.eqb_neq in Hr.
    + destruct (IH Hr) as [[E _] | [m0 [c' [-> Hc]]]]; [discriminate|].
      now exists (c :: m0), c'.
  - destruct r as [|i r]; [discriminate|].
    destruct (IH Hr) as [[E _] | H]; [discriminate | now right].
  - right. destruct (IH Hr) as [[E _] | [m0 [c' [-> Hc]]]]; [discriminate|].
    now exists (a :: m0), c'.
Qed.

Lemma pshaped_lang (r : Re.regex) (m : str) :
  pshaped r = true -> lang r m -> shaped m = true.
Proof.
  intros Hr H. apply pshaped_inv in Hr as [r' [-> [Hn He]]].
  apply lang_lit_inv in H as [m1 [-> H]]. apply lang_lit_inv in H as [m' [-> H]].
  simpl. rewrite ?N.eqb_refl, (lang_nox _ _ Hn H). simpl.
  apply negb_true_iff, N.eqb_neq.
  destruct (lang_ends _ _ He H) as [[_ ->] | [m0 [c [-> Hc]]]].
  - discriminate.
  - now rewrite last_last.
Qed.

Lemma item_nox_lits (m : str) : forallb item_nox (lits m) = nox m.
Proof. induction m as [|c m IH]; simpl; [reflexivity | now rewrite IH]. Qed.

Lemma ends_ok_lits (m : str) : ends_ok (lits m) = negb (last m cx =? ce).
Proof.
  induction m as [|c m IH]; [reflexivity|].
  destruct m as [|d m]; [reflexivity|]. exact IH.
Qed.

Lemma pshaped_lits (m : str) : shaped m = true -> pshaped (lits m) = true.
Proof.
  destruct m as [|a [|b m]]; try discriminate. simpl.
  now rewrite item_nox_lits, ends_ok_lits.
Qed.

Lemma pshaped_starts (r : Re.regex) (s : str) :
  pshaped r = true -> starts_ex s = false -> Re.match_here r s = None.
Proof.
  intros Hr Hs. apply pshaped_inv in Hr as [r' [-> _]].
  destruct s as [|a [|b s]]; simpl in *.
  - reflexivity.
  - now destruct (a =? ce).
  - destruct (a =? ce); [|reflexivity]. destruct (b =? cx); [discriminate | reflexivity].
Qed.

(** A match of a shaped pattern is a shaped, hence non-empty, prefix. *)
Lemma pshaped_match (r : Re.regex) (s t : str) :
  pshaped r = true -> Re.match_here r s = Some t ->
  exists m, s = m ++ t /\ lang r m /\ shaped m = true /\ (List.length t < List.length s)%nat.
Proof.
  intros Hr H. destruct (match_here_sound _ _ _ H) as [m [-> Hm]].
  exists m. repeat split; auto.
  - eapply pshaped_lang; eauto.
  - pose proof (pshaped_lang _ _ Hr Hm) as Hs.
    apply shaped_inv in Hs as [m' [-> _]]. rewrite length_app. simpl. lia.
Qed.

Lemma search_c_nox (r : Re.regex) (m o : str) :
  pshaped r = true -> nox m = true -> last m cx <> ce ->
  Re.search_c r (m ++ o) = Re.search_c r o.
Proof.
  intros Hr. induction m as [|c m IH]; intros Hn Hl; [reflexivity|].
  simpl in Hn. apply andb_true_iff in Hn as [Hc Hn].
  change ((c :: m) ++ o) with (c :: (m ++ o)).
  assert (E : Re.match_here r (c :: m ++ o) = None).
  { apply pshaped_starts; [exact Hr|].
    destruct m as [|d m]; simpl.
    - simpl in Hl. apply N.eqb_neq in Hl. rewrite Hl. now destruct o.
    - simpl in Hn. apply andb_true_iff in Hn as [Hd _].
      apply negb_true_iff in Hd. rewrite Hd. apply andb_false_r. }
  simpl. simpl in E. rewrite E. apply IH; [exact Hn|].
  destruct m as [|d m]; [discriminate | exact Hl].
Qed.

(** Past a shaped prefix at which the pattern does not match, a search
    finds what it finds after the prefix. *)
Lemma search_c_shaped (r : Re.regex) (m o : str) :
  pshaped r = true -> shaped m = true -> Re.match_here r (m ++ o) = None ->
  Re.search_c r (m ++ o) = Re.search_c r o.
Proof.
  intros Hr Hm E. apply shaped_inv in Hm as [m' [-> [Hn Hl]]].
  change ((ce :: cx :: m') ++ o) with (ce :: cx :: (m' ++ o)) in *.
  assert (E' : Re.match_here r (cx :: m' ++ o) = None).
  { apply pshaped_starts; [exact Hr|]. now destruct (m' ++ o). }
  change (Re.search_c r (ce :: cx :: m' ++ o))
    with (match Re.match_here r (ce :: cx :: m' ++ o) with
          | Some _ => true
          | None => match Re.match_here r (cx :: m' ++ o) with
                    | Some _ => true
                    | None => Re.search_c r (m' ++ o)
                    end
          end).
  rewrite E, E'. now apply search_c_nox.
Qed.

(** ** Patterns that cannot match at the same position *)

Lemma span_unique (f : char -> bool) :
  forall ws ws' c c' r r',
    forallb f ws = true -> forallb f ws' = true -> f c = false -> f c' = false ->
    ws ++ c :: r = ws' ++ c' :: r' -> ws = ws'.
Proof.
  induction ws as [|a ws IH]; intros [|a' ws'] c c' r r' H1 H2 Hc Hc' E; simpl in *.
  - reflexivity.
  - injection E as -> _. apply andb_true_iff in H2 as [H2 _]. congruence.
  - injection E as -> _. apply andb_true_iff in H1 as [H1 _]. congruence.
  - injection E as -> E. apply andb_true_iff in H1 as [_ H1].
    apply andb_true_iff in H2 as [_ H2]. f_equal. eauto.
Qed.

Lemma cclass_eqb_eq (k k' : Re.cclass) : cclass_eqb k k' = true -> k = k'.
Proof.
  destruct k, k'; simpl; try discriminate; [reflexivity|].
  intros H. apply N.eqb_eq in H. now subst.
Qed.

Lemma next_not_in_inv (k : Re.cclass) (r : Re.regex) :
  next_not_in k r = true -> exists c r', r = Re.Lit c :: r' /\ Re.in_class k c = false.
Proof.
  destruct r as [|[c|] r']; try discriminate. simpl. intros H.
  exists c, r'. split; [reflexivity | now apply negb_true_iff].
Qed.

Lemma clash_lang (p : Re.regex) :
  forall q m m' t t',
    clash p q = true -> lang p m -> lang q m' -> m ++ t = m' ++ t' -> False.
Proof.
  induction p as [|i p IH]; intros q m m' t t' Hc Hm Hm' E; [discriminate|].
  destruct i as [a|k], q as [|[b|k'] q]; try discriminate; simpl in Hc.
  - apply lang_lit_inv in Hm as [m1 [-> Hm]]. apply lang_lit_inv in Hm' as [m1' [-> Hm']].
    injection E as -> E. rewrite N.eqb_refl in Hc. eauto.
  - apply andb_true_iff in Hc as [Hc Hpq]. apply andb_true_iff in Hc as [Hc Hq].
    apply andb_true_iff in Hc as [Hk Hp]. apply cclass_eqb_eq in Hk as <-.
    apply next_not_in_inv in Hp as [c [p' [-> Hcn]]].
    apply next_not_in_inv in Hq as [c' [q' [-> Hcn']]].
    apply lang_star_inv in Hm as [ws [m1 [-> [Hws Hm]]]].
    apply lang_star_inv in Hm' as [ws' [m1' [-> [Hws' Hm']]]].
    pose proof Hm as Hm0. pose proof Hm' as Hm0'.
    apply lang_lit_inv in Hm0 as [m2 [-> _]]. apply lang_lit_inv in Hm0' as [m2' [-> _]].
    rewrite <- !app_assoc in E.
    pose proof (span_unique _ _ _ _ _ _ _ Hws Hws' Hcn Hcn' E) as <-.
    apply app_inv_head in E. eauto.
Qed.

Lemma clash_match (p q : Re.regex) (s : str) :
  clash p q = true -> Re.match_here p s <> None -> Re.match_here q s <> None -> False.
Proof.
  intros Hc Hp Hq.
  destruct (Re.match_here p s) as [t|] eqn:Ep; [|contradiction].
  destruct (Re.match_here q s) as [t'|] eqn:Eq; [|contradiction].
  destruct (match_here_sound _ _ _ Ep) as [m [E Hm]].
  destruct (match_here_sound _ _ _ Eq) as [m' [E' Hm']].
  apply (clash_lang p q m m' t t' Hc Hm Hm'). congruence.
Qed.

Lemma match_lits (m t : str) : Re.match_here (lits m) (m ++ t) <> None.
Proof. apply match_here_complete. now apply lang_lits. Qed.

Lemma clash_lits (p : Re.regex) (m o : str) :
  clash p (lits m) = true -> Re.match_here p (m ++ o) = None.
Proof.
  intros Hc. destruct (Re.match_here p (m ++ o)) eqn:E; [|reflexivity].
  exfalso. apply (clash_match _ _ (m ++ o) Hc); [congruence | apply match_lits].
Qed.

Lemma search_lits (m s : str) : Re.search_c (lits m) s = Py.contains m s.
Proof.
  apply eq_true_iff_eq. rewrite search_c_spec, contains_spec. unfold matches_in, occurs. split.
  - intros [u [m' [v [-> H]]]]. apply lang_lits in H as ->. now exists u, v.
  - intros [u [v ->]]. exists u, m, v. split; [reflexivity | now apply lang_lits].
Qed.

(** ** One rule of the Rewriter against the others *)

Section OneRule.

Variables (P : Re.regex) (R : str).
Hypothesis P_shaped : pshaped P = true.
Hypothesis R_shaped : shaped R = true.

Lemma ce_neq_cx : ce <> cx.
Proof. discriminate. Qed.

Lemma nox_tail (a : char) (m : str) : nox (a :: m) = true -> nox m = true.
Proof. unfold nox. simpl. intros H. now apply andb_true_iff in H as [_ H]. Qed.

Lemma nox_head (a : char) (m t : str) (s : str) :
  nox (a :: m) = true -> a :: m ++ t = cx :: s -> False.
Proof.
  simpl. intros H E. injection E as -> _. now rewrite N.eqb_refl in H.
Qed.

(** The text up to the first [x] goes through [re.sub] unchanged. *)
Lemma prefix_kept (m t0 : str) :
  nox m = true -> exists t, Re.sub_c P R (m ++ t0) = m ++ t.
Proof.
  induction m as [|c m IH]; intros Hn; [now eexists|].
  change ((c :: m) ++ t0) with (c :: (m ++ t0)).
  destruct (Re.match_here P (c :: m ++ t0)) as [t1|] eqn:E.
  - destruct (pshaped_match _ _ _ P_shaped E) as [M [EM [_ [HM Hlt]]]].
    rewrite (sub_c_match _ _ _ _ E Hlt).
    apply shaped_inv in HM as [M' [-> _]].
    apply shaped_inv in R_shaped as [R' [-> _]].
    injection EM as -> EM.
    destruct m as [|d m].
    + now eexists.
    + exfalso. apply nox_tail in Hn. eapply nox_head; eauto.
  - rewrite (sub_c_skip _ _ _ _ E).
    apply nox_tail in Hn.
    destruct (IH Hn) as [t ->]. now exists t.
Qed.

Lemma sub_c_empty : Re.sub_c P R [] = [].
Proof. apply sub_c_nil. now apply pshaped_starts. Qed.

(** Conversely, what [re.sub] returns up to its first [x] was in the input. *)
Lemma prefix_back (m : str) :
  forall s t, nox m = true -> Re.sub_c P R s = m ++ t -> exists t0, s = m ++ t0.
Proof.
  induction m as [|c m IH]; intros s t Hn E; [now exists s|].
  destruct s as [|a s]; [rewrite sub_c_empty in E; discriminate|].
  destruct (Re.match_here P (a :: s)) as [t1|] eqn:Em.
  - destruct (pshaped_match _ _ _ P_shaped Em) as [M [EM [_ [HM Hlt]]]].
    rewrite (sub_c_match _ _ _ _ Em Hlt) in E.
    apply shaped_inv in HM as [M' [-> _]].
    apply shaped_inv in R_shaped as [R' [-> _]].
    injection EM as -> ->. injection E as <- E.
    destruct m as [|d m].
    + now eexists.
    + exfalso. apply nox_tail in Hn. eapply nox_head; eauto.
  - rewrite (sub_c_skip _ _ _ _ Em) in E. injection E as -> E.
    apply nox_tail in Hn.
    destruct (IH _ _ Hn E) as [t0 ->]. now exists t0.
Qed.

(** Where the rule's replacement has been put, the rule's pattern of the
    same text is found. *)
Lemma replaced_occurs (s : str) :
  Re.search_c P s = true -> Py.contains R (Re.sub_c P R s) = true.
Proof.
  induction s as [|a s IH]; intros H.
  - apply search_c_spec in H. exfalso.
    assert (E : Re.search_c P [] = false).
    { simpl. now rewrite (pshaped_starts P [] P_shaped eq_refl). }
    apply search_c_spec in H. congruence.
  - destruct (Re.match_here P (a :: s)) as [t1|] eqn:E.
    + destruct (pshaped_match _ _ _ P_shaped E) as [M [_ [_ [_ Hlt]]]].
      rewrite (sub_c_match _ _ _ _ E Hlt). apply contains_prefix.
    + rewrite (sub_c_skip _ _ _ _ E).
      apply search_c_cons in H as [H | H]; [contradiction|].
      apply (contains_app_r R [a]). now apply IH.
Qed.

Section Other.

Variable P' : Re.regex.
Hypothesis P'_shaped : pshaped P' = true.

(** The output of the rule at a position the rule did not rewrite: a match
    of [P'] there comes from a match of [P'] in the input. *)
Lemma match_back (s : str) :
  Re.match_here P s = None ->
  Re.match_here P' (Re.sub_c P R s) <> None -> Re.match_here P' s <> None.
Proof.
  intros En H.
  destruct (Re.match_here P' (Re.sub_c P R s)) as [t|] eqn:E; [clear H | contradiction].
  destruct (pshaped_match _ _ _ P'_shaped E) as [M [EM [HL [HM _]]]].
  apply shaped_inv in HM as [m [-> [Hn _]]].
  destruct s as [|a s]; [rewrite sub_c_empty in EM; discriminate|].
  rewrite (sub_c_skip _ _ _ _ En) in EM. injection EM as -> EM.
  destruct s as [|b s]; [rewrite sub_c_empty in EM; discriminate|].
  destruct (Re.match_here P (b :: s)) as [t2|] eqn:E2.
  - exfalso. destruct (pshaped_match _ _ _ P_shaped E2) as [M2 [_ [_ [_ Hlt]]]].
    rewrite (sub_c_match _ _ _ _ E2 Hlt) in EM.
    apply shaped_inv in R_shaped as [R' [-> _]]. discriminate.
  - rewrite (sub_c_skip _ _ _ _ E2) in EM. injection EM as -> EM.
    destruct (prefix_back _ _ _ Hn EM) as [t0 ->].
    apply (match_here_complete _ _ HL t0).
Qed.

(** A match of [P'] in the input at a position the rule does not rewrite
    is still there in the output. *)
Lemma match_kept (s : str) :
  Re.match_here P s = None ->
  Re.match_here P' s <> None -> Re.match_here P' (Re.sub_c P R s) <> None.
Proof.
  intros En H.
  destruct (Re.match_here P' s) as [t0|] eqn:E; [clear H | contradiction].
  destruct (pshaped_match _ _ _ P'_shaped E) as [M [-> [HL [HM _]]]].
  apply shaped_inv in HM as [m [-> [Hn _]]].
  change ((ce :: cx :: m) ++ t0) with (ce :: cx :: (m ++ t0)) in *.
  rewrite (sub_c_skip _ _ _ _ En).
  rewrite sub_c_skip by (apply pshaped_starts; [exact P_shaped | now destruct (m ++ t0)]).
  destruct (prefix_kept m t0 Hn) as [t ->].
  apply (match_here_complete _ _ HL t).
Qed.

(** No new match: if every position of the input at which [P'] matches is
    one at which [P] matches, [P'] occurs nowhere in the output. *)
Lemma no_new_match_n (n : nat) :
  (forall o, Re.match_here P' (R ++ o) = None) ->
  forall s, (List.length s <= n)%nat ->
    (forall u v, s = u ++ v -> Re.match_here P' v <> None -> Re.match_here P v <> None) ->
    Re.search_c P' (Re.sub_c P R s) = false.
Proof.
  intros HR. induction n as [|n IH]; intros s Hlen Hs.
  - destruct s; [|simpl in Hlen; lia]. rewrite sub_c_empty. simpl.
    now rewrite (pshaped_starts P' [] P'_shaped eq_refl).
  - destruct s as [|a s].
    { rewrite sub_c_empty. simpl. now rewrite (pshaped_starts P' [] P'_shaped eq_refl). }
    destruct (Re.match_here P (a :: s)) as [t1|] eqn:E.
    + destruct (pshaped_match _ _ _ P_shaped E) as [M [EM [_ [_ Hlt]]]].
      rewrite (sub_c_match _ _ _ _ E Hlt).
      rewrite (search_c_shaped _ _ _ P'_shaped R_shaped (HR _)).
      apply IH; [simpl in *; lia|].
      intros u v -> Hv. apply (Hs (M ++ u) v); [|exact Hv].
      now rewrite EM, app_assoc.
    + rewrite (sub_c_skip _ _ _ _ E).
      assert (Hs' : Re.search_c P' (Re.sub_c P R s) = false).
      { apply IH; [simpl in *; lia|].
        intros u v -> Hv. now apply (Hs (a :: u) v). }
      destruct (Re.match_here P' (a :: Re.sub_c P R s)) as [t|] eqn:E'.
      * exfalso. apply (Hs [] (a :: s) eq_refl); [|exact E].
        apply match_back; [exact E|]. rewrite (sub_c_skip _ _ _ _ E). congruence.
      * simpl. simpl in E'. now rewrite E'.
Qed.

Lemma no_new_match (s : str) :
  (forall o, Re.match_here P' (R ++ o) = None) ->
  (forall u v, s = u ++ v -> Re.match_here P' v <> None -> Re.match_here P v <> None) ->
  Re.search_c P' (Re.sub_c P R s) = false.
Proof. intros HR Hs. now apply (no_new_match_n (List.length s)). Qed.

(** An occurrence of [P'] survives the rule when [P] and [P'] never match
    at the same position. *)
Lemma occurrence_kept_n (n : nat) :
  (forall s, Re.match_here P s <> None -> Re.match_here P' s <> None -> False) ->
  forall s, (List.length s <= n)%nat ->
    Re.search_c P' s = true -> Re.search_c P' (Re.sub_c P R s) = true.
Proof.
  intros Hc. induction n as [|n IH]; intros s Hlen Hs.
  - destruct s; [|simpl in Hlen; lia]. simpl in Hs.
    now rewrite (pshaped_starts P' [] P'_shaped eq_refl) in Hs.
  - destruct s as [|a s].
    { simpl in Hs. now rewrite (pshaped_starts P' [] P'_shaped eq_refl) in Hs. }
    destruct (Re.match_here P (a :: s)) as [t1|] eqn:E.
    + destruct (pshaped_match _ _ _ P_shaped E) as [M [EM [_ [HM Hlt]]]].
      rewrite (sub_c_match _ _ _ _ E Hlt). apply search_c_app_r.
      apply IH; [simpl in *; lia|].
      rewrite EM in Hs. rewrite search_c_shaped in Hs; auto.
      destruct (Re.match_here P' (M ++ t1)) eqn:E'; [|reflexivity].
      exfalso. apply (Hc (a :: s)); [congruence | rewrite EM; congruence].
    + apply search_c_cons in Hs as [Hs | Hs].
      * apply search_c_here. now apply match_kept.
      * rewrite (sub_c_skip _ _ _ _ E).
        apply (search_c_app_r P' [a]). apply IH; [simpl in *; lia | exact Hs].
Qed.

Lemma occurrence_kept (s : str) :
  clash P P' = true ->
  Re.search_c P' s = true -> Re.search_c P' (Re.sub_c P R s) = true.
Proof.
  intros Hc. apply (occurrence_kept_n (List.length s)); [|lia].
  intros s0. now apply clash_match.
Qed.

End Other.

(** The rule leaves no match of its own pattern. *)
Lemma no_residual (s : str) :
  clash P (lits R) = true -> Re.search_c P (Re.sub_c P R s) = false.
Proof.
  intros Hc. apply no_new_match; auto.
  intros o. now apply clash_lits.
Qed.

(** The rule creates no match of another pattern. *)
Lemma no_creation (P' : Re.regex) (s : str) :
  pshaped P' = true -> clash P' (lits R) = true ->
  Re.search_c P' s = false -> Re.search_c P' (Re.sub_c P R s) = false.
Proof.
  intros HP' Hc Hs. apply no_new_match; auto.
  - intros o. now apply clash_lits.
  - intros u v -> Hv. exfalso.
    assert (Re.search_c P' (u ++ v) = true) by now apply search_c_app_r, search_c_here.
    congruence.
Qed.

(** The rule keeps the replacement another rule has written. *)
Lemma replacement_kept (R' : str) (s : str) :
  shaped R' = true -> clash P (lits R') = true ->
  Py.contains R' s = true -> Py.contains R' (Re.sub_c P R s) = true.
Proof.
  intros HR' Hc. rewrite <- !search_lits.
  apply occurrence_kept; [now apply pshaped_lits | exact Hc].
Qed.

End OneRule.

(** ** The ordered rule list *)

Lemma chain_no_creation (P' : Re.regex) (rules : list (Re.regex * str)) :
  pshaped P' = true ->
  (forall q, In q rules ->
     pshaped (fst q) = true /\ shaped (snd q) = true /\ clash P' (lits (snd q)) = true) ->
  forall t, Re.search_c P' t = false -> Re.search_c P' (apply_c rules t) = false.
Proof.
  intros HP'. induction rules as [|[p r] rules IH]; intros H t Ht; [exact Ht|].
  simpl. apply IH.
  - intros q Hq. apply H. now right.
  - destruct (H (p, r) (or_introl eq_refl)) as [Hp [Hr Hc]].
    now apply no_creation.
Qed.

Lemma chain_no_residual (rules : list (Re.regex * str)) :
  (forall q, In q rules -> pshaped (fst q) = true /\ shaped (snd q) = true) ->
  (forall q q', In q rules -> In q' rules -> clash (fst q) (lits (snd q')) = true) ->
  forall t q, In q rules -> Re.search_c (fst q) (apply_c rules t) = false.
Proof.
  induction rules as [|[p r] rules IH]; intros Hs Hc t q Hq; [contradiction|].
  simpl. destruct Hq as [<- | Hq].
  - destruct (Hs (p, r) (or_introl eq_refl)) as [Hp Hr]. simpl in *.
    apply chain_no_creation; [exact Hp | |].
    + intros q Hq. destruct (Hs q (or_intror Hq)) as [H1 H2].
      repeat split; auto. apply (Hc (p, r) q); [now left | now right].
    + apply no_residual; auto. apply (Hc (p, r) (p, r)); now left.
  - apply IH; auto.
    + intros q0 H0. apply Hs. now right.
    + intros q0 q1 H0 H1. apply Hc; now right.
Qed.

Lemma chain_replacement_kept (R' : str) (rules : list (Re.regex * str)) :
  shaped R' = true ->
  (forall q, In q rules ->
     pshaped (fst q) = true /\ shaped (snd q) = true /\ clash (fst q) (lits R') = true) ->
  forall t, Py.contains R' t = true -> Py.contains R' (apply_c rules t) = true.
Proof.
  intros HR'. induction rules as [|[p r] rules IH]; intros H t Ht; [exact Ht|].
  simpl. apply IH.
  - intros q Hq. apply H. now right.
  - destruct (H (p, r) (or_introl eq_refl)) as [Hp [Hr Hc]].
    now apply replacement_kept.
Qed.

Lemma splits_ok_pre (todo : list (Re.regex * str)) :
  forall pre q q0, splits_ok pre todo = true -> In q todo -> In q0 pre ->
    clash (fst q0) (fst q) = true.
Proof.
  induction todo as [|[p r] post IH]; intros pre q q0 H Hq H0; [contradiction|].
  simpl in H. apply andb_true_iff in H as [H H2]. apply andb_true_iff in H as [H1 _].
  destruct Hq as [<- | Hq].
  - rewrite forallb_forall in H1. now apply H1.
  - apply (IH (pre ++ [(p, r)])); auto. apply in_or_app. now left.
Qed.

Lemma chain_transformed (todo : list (Re.regex * str)) :
  forall pre, splits_ok pre todo = true ->
    (forall q, In q todo -> pshaped (fst q) = true /\ shaped (snd q) = true) ->
    forall t q, In q todo -> Re.search_c (fst q) t = true ->
      Py.contains (snd q) (apply_c todo t) = true.
Proof.
  induction todo as [|[p r] post IH]; intros pre H Hs t q Hq Ht; [contradiction|].
  destruct (Hs (p, r) (or_introl eq_refl)) as [Hp Hr]. simpl in Hp, Hr.
  pose proof H as H'. simpl in H'.
  apply andb_true_iff in H' as [H' H3]. apply andb_true_iff in H' as [_ H2].
  rewrite forallb_forall in H2.
  simpl. destruct Hq as [<- | Hq].
  - simpl in *. apply chain_replacement_kept; [exact Hr | |].
    + intros q Hq. destruct (Hs q (or_intror Hq)) as [H4 H5]. repeat split; auto.
    + now apply replaced_occurs.
  - apply (IH _ H3); auto.
    + intros q0 H0. apply Hs. now right.
    + destruct (Hs q (or_intror Hq)) as [H4 _].
      apply occurrence_kept; auto.
      apply (splits_ok_pre _ _ q (p, r) H3 Hq). apply in_or_app. right. now left.
Qed.

(** ** The Rewriter's own list *)

Lemma replacements_compile : compile_rules Rewriter.replacements = Some crules.
Proof. vm_compute. reflexivity. Qed.

Lemma crules_ok : rules_ok crules = true.
Proof. vm_compute. reflexivity. Qed.

Lemma apply_rules_compiled (rules : list (str * str)) :
  forall crs t, compile_rules rules = Some crs ->
    Rewriter.apply_rules rules t = Some (apply_c crs t).
Proof.
  induction rules as [|[p r] rules IH]; intros crs t H; simpl in *.
  - now injection H as <-.
  - unfold Re.sub. destruct (existsb (N.eqb 92) r); [discriminate|].
    destruct (Re.compile p) as [c|]; [|discriminate].
    destruct (compile_rules rules) as [l|]; [|discriminate].
    injection H as <-. simpl. now apply IH.
Qed.

Lemma transform_compiled (t : str) : Rewriter.transform t = Some (apply_c crules t).
Proof. apply apply_rules_compiled, replacements_compile. Qed.

Lemma compile_rules_search (rules : list (str * str)) :
  forall crs, compile_rules rules = Some crs ->
    forall (b : bool) (t : str),
      Forall (fun q => Re.search_c (fst q) t = b) crs <->
      Forall (fun q => Re.search (fst q) t = Some b) rules.
Proof.
  induction rules as [|[p r] rules IH]; intros crs H b t; simpl in H.
  - injection H as <-. split; constructor.
  - destruct (existsb (N.eqb 92) r); [discriminate|].
    destruct (Re.compile p) as [c|] eqn:Ec; [|discriminate].
    destruct (compile_rules rules) as [l|]; [|discriminate].
    injection H as <-. specialize (IH l eq_refl b t).
    split; intros HF; inversion HF as [|? ? Hq Hl]; subst; constructor.
    + unfold Re.search. simpl in *. rewrite Ec. now f_equal.
    + now apply IH.
    + unfold Re.search in Hq. simpl in *. rewrite Ec in Hq. congruence.
    + now apply IH.
Qed.

Lemma compile_rules_contains (rules : list (str * str)) :
  forall crs, compile_rules rules = Some crs ->
    forall (t : str),
      Forall (fun q => Py.contains (snd q) t = true) crs <->
      Forall (fun q => Py.contains (snd q) t = true) rules.
Proof.
  induction rules as [|[p r] rules IH]; intros crs H t; simpl in H.
  - injection H as <-. split; constructor.
  - destruct (existsb (N.eqb 92) r); [discriminate|].
    destruct (Re.compile p) as [c|] eqn:Ec; [|discriminate].
    destruct (compile_rules rules) as [l|]; [|discriminate].
    injection H as <-. specialize (IH l eq_refl t).
    split; intros HF; inversion HF as [|? ? Hq Hl]; subst; constructor; auto;
      now apply IH.
Qed.

Lemma crules_facts :
  (forall q, In q crules -> pshaped (fst q) = true /\ shaped (snd q) = true) /\
  (forall q q', In q crules -> In q' crules -> clash (fst q) (lits (snd q')) = true) /\
  splits_ok [] crules = true.
Proof.
  pose proof crules_ok as H. unfold rules_ok in H.
  apply andb_true_iff in H as [H H3]. apply andb_true_iff in H as [H1 H2].
  rewrite forallb_forall in H1, H2. split; [|split].
  - intros q Hq. now apply andb_true_iff, H1.
  - intros q q' Hq Hq'. specialize (H2 q Hq). rewrite forallb_forall in H2. now apply H2.
  - exact H3.
Qed.

(** After the ten rules no pattern of the list occurs in the text. *)
Lemma transform_no_residual (t : str) :
  Forall (fun q => Re.search_c (fst q) (apply_c crules t) = false) crules.
Proof.
  destruct crules_facts as [Hs [Hc _]]. apply Forall_forall. intros q Hq.
  now apply chain_no_residual.
Qed.

(** A text in which no pattern occurs goes through the rules unchanged. *)
Lemma apply_c_no_match (rules : list (Re.regex * str)) (t : str) :
  Forall (fun q => Re.search_c (fst q) t = false) rules -> apply_c rules t = t.
Proof.
  induction 1 as [|[p r] rules Hq _ IH]; [reflexivity|].
  simpl in *. now rewrite sub_c_no_match.
Qed.

(** ** Console and files *)

Lemma put_lines_app (l1 l2 : list str) (w : world) :
  put_lines (l1 ++ l2) w = put_lines l2 (put_lines l1 w).
Proof. apply fold_left_app. Qed.

Lemma put_lines_frame (lines : list str) (w : world) :
  w_listing (put_lines lines w) = w_listing w /\
  w_store (put_lines lines w) = w_store w /\
  w_write_error (put_lines lines w) = w_write_error w /\
  w_writes (put_lines lines w) = w_writes w /\
  w_stdout (put_lines lines w) = w_stdout w ++ lines.
Proof.
  revert w. induction lines as [|l lines IH]; intros w; simpl.
  - now rewrite app_nil_r.
  - destruct (IH (put_line l w)) as [H1 [H2 [H3 [H4 H5]]]].
    rewrite H1, H2, H3, H4, H5. simpl. now rewrite <- app_assoc.
Qed.

Lemma print_each_run (fmt : str -> str) (l : list str) (w : world) :
  print_each fmt l w = (Ok tt, put_lines (map fmt l) w).
Proof.
  revert w. induction l as [|x l IH]; intros w; [reflexivity|].
  simpl. unfold bind, print. apply IH.
Qed.

Lemma print_lines_run (l : list str) (w : world) :
  print_each (fun x => x) l w = (Ok tt, put_lines l w).
Proof. now rewrite print_each_run, map_id. Qed.

Lemma str_eqb_refl (a : str) : str_eqb a a = true.
Proof. unfold str_eqb. destruct (list_eq_dec N.eq_dec a a); congruence. Qed.

Lemma put_file_store (path content : str) (w : world) :
  w_store (put_file path content w) path = FText content.
Proof. unfold put_file. cbn [w_store]. now rewrite str_eqb_refl. Qed.

(** ** The Rewriter *)

Lemma rewriter_main_run (w : world) (raw : str) :
  w_store w Rewriter.test_file = FText raw ->
  w_write_error w Rewriter.test_file = None ->
  Rewriter.main w =
  (Ok tt, put_lines Rewriter.report_lines
            (put_file Rewriter.test_file (apply_c crules (Py.universal_newlines raw)) w)).
Proof.
  intros Hr Hw. unfold Rewriter.main, bind, read_text. rewrite Hr.
  unfold of_option. rewrite transform_compiled.
  unfold write_text. rewrite Hw. apply print_lines_run.
Qed.

Lemma universal_newlines_id (s : str) : ~ In 13 s -> Py.universal_newlines s = s.
Proof.
  induction s as [|c s IH]; intros H; [reflexivity|].
  simpl. destruct (N.eqb_spec c 13) as [->|_].
  - exfalso. apply H. now left.
  - f_equal. apply IH. intros H'. apply H. now right.
Qed.

(** C2, as the code has it: the rule list has ten call-expression shapes,
    not nine. *)
Lemma rewriter_rule_count_is_not_nine : List.length Rewriter.replacements <> 9%nat.
Proof. discriminate. Qed.

(** C2, amended.  The rule list has ten call-expression shapes.  For a text
    that contains an instance of each of them, the rules produce a text that
    contains the transformed call of every rule and in which no pattern of
    the list matches any more. *)
Theorem rewriter_rewrites_every_shape (t : str) :
  Forall (fun q => Re.search (fst q) t = Some true) Rewriter.replacements ->
  List.length Rewriter.replacements = 10%nat /\
  exists t', Rewriter.transform t = Some t' /\
    Forall (fun q => Py.contains (snd q) t' = true) Rewriter.replacements /\
    Forall (fun q => Re.search (fst q) t' = Some false) Rewriter.replacements.
Proof.
  intros H. split; [reflexivity|].
  exists (apply_c crules t). split; [apply transform_compiled|].
  apply (compile_rules_search _ _ replacements_compile) in H.
  destruct crules_facts as [Hs [_ Hsp]]. split.
  - apply (compile_rules_contains _ _ replacements_compile).
    rewrite Forall_forall in *. intros q Hq.
    apply (chain_transformed crules [] Hsp Hs t q Hq). now apply H.
  - apply (compile_rules_search _ _ replacements_compile), transform_no_residual.
Qed.

Lemma rewriter_rewrites_every_shape_witness :
  Forall (fun q => Re.search (fst q) sample_text = Some true) Rewriter.replacements /\
  List.length Rewriter.replacements = 10%nat /\
  exists t', Rewriter.transform sample_text = Some t' /\
    Forall (fun q => Py.contains (snd q) t' = true) Rewriter.replacements /\
    Forall (fun q => Re.search (fst q) t' = Some false) Rewriter.replacements.
Proof.
  assert (H : Forall (fun q => Re.search (fst q) sample_text = Some true) Rewriter.replacements).
  { repeat (apply Forall_cons; [vm_compute; reflexivity|]). apply Forall_nil. }
  split; [exact H | apply (rewriter_rewrites_every_shape sample_text H)].
Defined.

(** C3.  Applying the ordered rule list to a text it has already
    transformed changes nothing: the patterns find no match there. *)
Theorem rewriter_idempotent (t : str) :
  exists t', Rewriter.transform t = Some t' /\
    Forall (fun q => Re.search (fst q) t' = Some false) Rewriter.replacements /\
    Rewriter.transform t' = Some t'.
Proof.
  exists (apply_c crules t). split; [apply transform_compiled|]. split.
  - apply (compile_rules_search _ _ replacements_compile), transform_no_residual.
  - rewrite transform_compiled. f_equal.
    apply apply_c_no_match, transform_no_residual.
Qed.

(** C4, as the code has it: a file with a CR LF line ending in which no
    pattern matches is not left byte-identical, because text-mode reading
    hands the line ending over as LF and that is what is written back. *)
Lemma rewriter_crlf_not_identical :
  Forall (fun q => Re.search (fst q) crlf_raw = Some false) Rewriter.replacements /\
  Forall (fun q => Re.search (fst q) (Py.universal_newlines crlf_raw) = Some false)
         Rewriter.replacements /\
  fst (Rewriter.main crlf_world) = Ok tt /\
  w_store crlf_world Rewriter.test_file = FText [97; 13; 10; 98] /\
  w_store (snd (Rewriter.main crlf_world)) Rewriter.test_file = FText [97; 10; 98].
Proof.
  split; [|split].
  - repeat (apply Forall_cons; [vm_compute; reflexivity|]). apply Forall_nil.
  - repeat (apply Forall_cons; [vm_compute; reflexivity|]). apply Forall_nil.
  - vm_compute. repeat split.
Qed.

(** C4, amended.  When no pattern matches the text read from the file, the
    Rewriter completes without error, reports the length of the rule list
    (ten) as the number of replacements applied, and writes back the text it
    read; the file is left as it was whenever it holds no carriage return. *)
Theorem rewriter_no_match_run (w : world) (raw : str) :
  w_store w Rewriter.test_file = FText raw ->
  w_write_error w Rewriter.test_file = None ->
  Forall (fun q => Re.search (fst q) (Py.universal_newlines raw) = Some false)
         Rewriter.replacements ->
  let w' := snd (Rewriter.main w) in
  fst (Rewriter.main w) = Ok tt /\
  w_stdout w' = w_stdout w ++
    [ 9989 :: s2l " Fixed weatherApi.test.js expectations!";
      s2l "Applied " ++ dec (List.length Rewriter.replacements) ++ s2l " replacements" ] /\
  dec (List.length Rewriter.replacements) = s2l "10" /\
  w_store w' Rewriter.test_file = FText (Py.universal_newlines raw) /\
  (~ In 13 raw -> w_store w' Rewriter.test_file = w_store w Rewriter.test_file).
Proof.
  intros Hr Hw Hn. cbv zeta. rewrite (rewriter_main_run w raw Hr Hw).
  apply (compile_rules_search _ _ replacements_compile) in Hn.
  rewrite (apply_c_no_match _ _ Hn). cbn [fst snd].
  destruct (put_lines_frame Rewriter.report_lines
              (put_file Rewriter.test_file (Py.universal_newlines raw) w))
    as [_ [Hs [_ [_ Ho]]]].
  rewrite Hs, Ho.
  pose proof (put_file_store Rewriter.test_file (Py.universal_newlines raw) w) as Hst.
  repeat split; auto.
  intros Hcr. now rewrite Hst, Hr, universal_newlines_id.
Qed.

Lemma rewriter_no_match_run_witness :
  fst (Rewriter.main plain_world) = Ok tt /\
  w_stdout (snd (Rewriter.main plain_world)) = w_stdout plain_world ++
    [ 9989 :: s2l " Fixed weatherApi.test.js expectations!";
      s2l "Applied " ++ dec (List.length Rewriter.replacements) ++ s2l " replacements" ] /\
  dec (List.length Rewriter.replacements) = s2l "10" /\
  w_store (snd (Rewriter.main plain_world)) Rewriter.test_file
    = FText (Py.universal_newlines plain_text) /\
  (~ In 13 plain_text ->
   w_store (snd (Rewriter.main plain_world)) Rewriter.test_file
     = w_store plain_world Rewriter.test_file).
Proof.
  apply (rewriter_no_match_run plain_world plain_text).
  - reflexivity.
  - reflexivity.
  - repeat (apply Forall_cons; [vm_compute; reflexivity|]). apply Forall_nil.
Defined.

(** C10.  Once the file has been read, the Rewriter writes it exactly once,
    whatever the rules did: also when no rule matched, the file is written,
    with the text that was read. *)
Theorem rewriter_writes_once (w : world) (raw : str) :
  w_store w Rewriter.test_file = FText raw ->
  w_write_error w Rewriter.test_file = None ->
  exists t', Rewriter.transform (Py.universal_newlines raw) = Some t' /\
    w_writes (snd (Rewriter.main w)) = w_writes w ++ [(Rewriter.test_file, t')] /\
    w_store (snd (Rewriter.main w)) Rewriter.test_file = FText t' /\
    (Forall (fun q => Re.search (fst q) (Py.universal_newlines raw) = Some false)
            Rewriter.replacements -> t' = Py.universal_newlines raw).
Proof.
  intros Hr Hw. exists (apply_c crules (Py.universal_newlines raw)).
  split; [apply transform_compiled|].
  rewrite (rewriter_main_run w raw Hr Hw). cbn [snd].
  destruct (put_lines_frame Rewriter.report_lines
              (put_file Rewriter.test_file (apply_c crules (Py.universal_newlines raw)) w))
    as [_ [Hs [_ [Hwr _]]]].
  rewrite Hs, Hwr. split; [reflexivity | split].
  - apply put_file_store.
  - intros Hn. apply (compile_rules_search _ _ replacements_compile) in Hn.
    now apply apply_c_no_match.
Qed.

Lemma rewriter_writes_once_witness :
  exists t', Rewriter.transform (Py.universal_newlines plain_text) = Some t' /\
    w_writes (snd (Rewriter.main plain_world))
      = w_writes plain_world ++ [(Rewriter.test_file, t')] /\
    w_store (snd (Rewriter.main plain_world)) Rewriter.test_file = FText t' /\
    (Forall (fun q => Re.search (fst q) (Py.universal_newlines plain_text) = Some false)
            Rewriter.replacements -> t' = Py.universal_newlines plain_text).
Proof.
  apply (rewriter_writes_once plain_world plain_text); reflexivity.
Defined.

(** ** The Scanner *)

Lemma check_file_run (w : world) (filepath : str) (acc : list str) :
  Scanner.check_file filepath acc w =
  (Ok (if needs_fix w filepath then acc ++ [filepath] else acc),
   put_lines (file_lines w filepath) w).
Proof.
  unfold Scanner.check_file, try_, bind, read_text, needs_fix, file_lines.
  destruct (w_store w filepath) as [raw | e]; [|reflexivity].
  cbv zeta. destruct (Py.contains Scanner.marker (Py.universal_newlines raw)); [|reflexivity].
  unfold of_option. rewrite legacy_search. rewrite andb_true_l.
  destruct (Re.search_c legacy_c (Py.universal_newlines raw)
            && negb (Py.contains Scanner.headers_marker (Py.universal_newlines raw)));
    now rewrite print_lines_run.
Qed.

Lemma needs_fix_put_lines (lines : list str) (w : world) (p : str) :
  needs_fix (put_lines lines w) p = needs_fix w p /\
  file_lines (put_lines lines w) p = file_lines w p.
Proof.
  unfold needs_fix, file_lines.
  destruct (put_lines_frame lines w) as [_ [-> _]]. now split.
Qed.

Lemma check_files_run (files : list str) :
  forall (acc : list str) (w : world),
    Scanner.check_files files acc w =
    (Ok (acc ++ filter (needs_fix w) files),
     put_lines (flat_map (file_lines w) files) w).
Proof.
  induction files as [|p files IH]; intros acc w; simpl.
  - unfold ret. now rewrite app_nil_r.
  - unfold bind. rewrite check_file_run, IH, put_lines_app.
    f_equal.
    + f_equal. rewrite (filter_ext _ (needs_fix w)).
      * destruct (needs_fix w p); [now rewrite <- app_assoc | reflexivity].
      * intros a. apply needs_fix_put_lines.
    + f_equal. apply flat_map_ext. intros a. apply needs_fix_put_lines.
Qed.

Lemma scanner_run (directory : str) (w : world) :
  Scanner.find_test_files_with_fetch_mocks directory w =
  (Ok tt,
   put_lines
     (Scanner.found_line (List.length (test_files w directory)) ::
      flat_map (file_lines w) (test_files w directory) ++
      Scanner.summary_lines (filter (needs_fix w) (test_files w directory)))
     w).
Proof.
  unfold Scanner.find_test_files_with_fetch_mocks, bind, os_walk, test_files.
  assert (G : forall files,
    (let (r, w') := print (Scanner.found_line (List.length files)) w in
     match r with
     | Ok _ =>
         let (r0, w'0) := Scanner.check_files files [] w' in
         match r0 with
         | Ok a0 => print_each (fun l => l) (Scanner.summary_lines a0) w'0
         | Raise e => (Raise e, w'0)
         end
     | Raise e => (Raise e, w')
     end) =
    (Ok tt, put_lines (Scanner.found_line (List.length files) ::
                       flat_map (file_lines w) files ++
                       Scanner.summary_lines (filter (needs_fix w) files)) w)).
  { intros files. unfold print. rewrite check_files_run, print_lines_run.
    change (put_lines (?a :: ?l) w) with (put_lines l (put_line a w)).
    rewrite put_lines_app. simpl app.
    rewrite (filter_ext _ (needs_fix w)).
    - rewrite (flat_map_ext _ (file_lines w)); [reflexivity|].
      intros a. apply (needs_fix_put_lines [_] w a).
    - intros a. apply (needs_fix_put_lines [_] w a). }
  destruct (w_listing w directory); apply G.
Qed.

Lemma needs_fix_spec (w : world) (filepath raw : str) :
  w_store w filepath = FText raw ->
  (needs_fix w filepath = true <->
   occurs Scanner.marker (Py.universal_newlines raw) /\
   legacy_shape (Py.universal_newlines raw) /\
   ~ occurs Scanner.headers_marker (Py.universal_newlines raw)).
Proof.
  intros H. unfold needs_fix. rewrite H. cbv zeta.
  rewrite !andb_true_iff, negb_true_iff, contains_spec, contains_false, legacy_search_spec.
  reflexivity.
Qed.

(** C1.  For a file whose text contains [global.fetch], the Scanner puts
    the file on the needs-fix list and prints the failure lines exactly when
    the legacy pattern occurs in the text and [headers:] occurs nowhere in
    it; in every other case it prints the compliant lines and leaves the
    list alone. *)
Theorem scanner_classification (w : world) (filepath raw : str) (acc : list str) :
  w_store w filepath = FText raw ->
  occurs (s2l "global.fetch") (Py.universal_newlines raw) ->
  (legacy_shape (Py.universal_newlines raw) /\
   ~ occurs (s2l "headers:") (Py.universal_newlines raw) ->
   Scanner.check_file filepath acc w =
   (Ok (acc ++ [filepath]),
    put_lines [ 10060 :: 32 :: filepath; s2l "   Found fetch mocks without headers" ] w)) /\
  (~ (legacy_shape (Py.universal_newlines raw) /\
      ~ occurs (s2l "headers:") (Py.universal_newlines raw)) ->
   Scanner.check_file filepath acc w =
   (Ok acc,
    put_lines [ 9989 :: 32 :: filepath; s2l "   Already has proper fetch mocks" ] w)).
Proof.
  intros Hs Hm. rewrite check_file_run.
  pose proof (needs_fix_spec w filepath raw Hs) as Hn.
  assert (Hl : file_lines w filepath =
               if needs_fix w filepath then Scanner.needs_fix_lines filepath
               else Scanner.compliant_lines filepath).
  { unfold file_lines, needs_fix. rewrite Hs. cbv zeta.
    apply contains_spec in Hm. fold Scanner.marker in Hm. now rewrite Hm. }
  rewrite Hl. split; intros H.
  - assert (E : needs_fix w filepath = true) by (apply Hn; tauto).
    now rewrite E.
  - destruct (needs_fix w filepath) eqn:E; [|reflexivity].
    exfalso. apply H. now apply Hn.
Qed.

Lemma scan_world_a_marker :
  occurs (s2l "global.fetch")
    (Py.universal_newlines
       (s2l "global.fetch = vi.fn(() => Promise.resolve({ ok: true, json: () => data }))")).
Proof. apply contains_spec. vm_compute. reflexivity. Qed.

Lemma scanner_classification_witness :
  (legacy_shape (Py.universal_newlines
     (s2l "global.fetch = vi.fn(() => Promise.resolve({ ok: true, json: () => data }))")) /\
   ~ occurs (s2l "headers:") (Py.universal_newlines
     (s2l "global.fetch = vi.fn(() => Promise.resolve({ ok: true, json: () => data }))")) ->
   Scanner.check_file (s2l "/r/a.test.js") [] scan_world =
   (Ok ([] ++ [s2l "/r/a.test.js"]),
    put_lines [ 10060 :: 32 :: s2l "/r/a.test.js"; s2l "   Found fetch mocks without headers" ]
              scan_world)) /\
  (~ (legacy_shape (Py.universal_newlines
        (s2l "global.fetch = vi.fn(() => Promise.resolve({ ok: true, json: () => data }))")) /\
      ~ occurs (s2l "headers:") (Py.universal_newlines
        (s2l "global.fetch = vi.fn(() => Promise.resolve({ ok: true, json: () => data }))"))) ->
   Scanner.check_file (s2l "/r/a.test.js") [] scan_world =
   (Ok [],
    put_lines [ 9989 :: 32 :: s2l "/r/a.test.js"; s2l "   Already has proper fetch mocks" ]
              scan_world)).
Proof.
  apply (scanner_classification scan_world (s2l "/r/a.test.js")
           (s2l "global.fetch = vi.fn(() => Promise.resolve({ ok: true, json: () => data }))") []).
  - reflexivity.
  - exact scan_world_a_marker.
Defined.

(** C5.  A test file that cannot be read gets a warning line with its path
    and the error, is not added to the needs-fix list, and the loop goes on
    with the files after it: the scan of the whole list always returns. *)
Theorem scanner_read_failure_skipped
    (w : world) (pre post : list str) (filepath e : str) (acc : list str) :
  w_store w filepath = FFail e ->
  exists acc1 w1 final w2,
    Scanner.check_files pre acc w = (Ok acc1, w1) /\
    Scanner.check_file filepath acc1 w1 =
      (Ok acc1,
       put_line (9888 :: 65039 :: s2l "  Error reading " ++ filepath ++ s2l ": " ++ e) w1) /\
    Scanner.check_files (pre ++ filepath :: post) acc w =
      Scanner.check_files post acc1
        (put_line (9888 :: 65039 :: s2l "  Error reading " ++ filepath ++ s2l ": " ++ e) w1) /\
    Scanner.check_files (pre ++ filepath :: post) acc w = (Ok final, w2) /\
    final = acc1 ++ filter (needs_fix w) post.
Proof.
  intros Hf.
  assert (Hn : needs_fix w filepath = false) by (unfold needs_fix; now rewrite Hf).
  assert (Hl : file_lines w filepath = [Scanner.warning_line filepath e])
    by (unfold file_lines; now rewrite Hf).
  exists (acc ++ filter (needs_fix w) pre), (put_lines (flat_map (file_lines w) pre) w).
  eexists. eexists.
  assert (E1 : forall p, needs_fix (put_lines (flat_map (file_lines w) pre) w) p = needs_fix w p)
    by (intros p; apply needs_fix_put_lines).
  assert (E2 : forall p, file_lines (put_lines (flat_map (file_lines w) pre) w) p = file_lines w p)
    by (intros p; apply needs_fix_put_lines).
  assert (E3 : forall l p, needs_fix (put_line l (put_lines (flat_map (file_lines w) pre) w)) p
                           = needs_fix w p).
  { intros l p. rewrite <- E1. apply (needs_fix_put_lines [l]). }
  assert (E4 : forall l p, file_lines (put_line l (put_lines (flat_map (file_lines w) pre) w)) p
                           = file_lines w p).
  { intros l p. rewrite <- E2. apply (needs_fix_put_lines [l]). }
  split; [apply check_files_run|]. split.
  { rewrite check_file_run, E1, E2, Hn, Hl. reflexivity. }
  assert (E : Scanner.check_files (pre ++ filepath :: post) acc w =
              Scanner.check_files post (acc ++ filter (needs_fix w) pre)
                (put_line (Scanner.warning_line filepath e)
                   (put_lines (flat_map (file_lines w) pre) w))).
  { rewrite !check_files_run.
    rewrite (filter_ext (needs_fix (put_line _ _)) (needs_fix w)) by (intros a; apply E3).
    rewrite (flat_map_ext (file_lines (put_line _ _)) (file_lines w)) by (intros a; apply E4).
    rewrite filter_app, flat_map_app. simpl. rewrite Hn, Hl.
    rewrite !put_lines_app, app_assoc. reflexivity. }
  split; [exact E|]. split.
  - rewrite E. apply check_files_run.
  - f_equal. apply filter_ext. intros a. apply E3.
Qed.

Lemma scanner_read_failure_skipped_witness :
  exists acc1 w1 final w2,
    Scanner.check_files [s2l "/r/a.test.js"] [] scan_world = (Ok acc1, w1) /\
    Scanner.check_file (s2l "/r/e.test.js") acc1 w1 =
      (Ok acc1,
       put_line (9888 :: 65039 :: s2l "  Error reading " ++ s2l "/r/e.test.js" ++ s2l ": "
                   ++ s2l "[Errno 13] Permission denied") w1) /\
    Scanner.check_files ([s2l "/r/a.test.js"] ++ s2l "/r/e.test.js" :: [s2l "/r/sub/b.test.jsx"])
                        [] scan_world =
      Scanner.check_files [s2l "/r/sub/b.test.jsx"] acc1
        (put_line (9888 :: 65039 :: s2l "  Error reading " ++ s2l "/r/e.test.js" ++ s2l ": "
                     ++ s2l "[Errno 13] Permission denied") w1) /\
    Scanner.check_files ([s2l "/r/a.test.js"] ++ s2l "/r/e.test.js" :: [s2l "/r/sub/b.test.jsx"])
                        [] scan_world = (Ok final, w2) /\
    final = acc1 ++ filter (needs_fix scan_world) [s2l "/r/sub/b.test.jsx"].
Proof.
  apply (scanner_read_failure_skipped scan_world [s2l "/r/a.test.js"] [s2l "/r/sub/b.test.jsx"]
           (s2l "/r/e.test.js") (s2l "[Errno 13] Permission denied") []).
  reflexivity.
Defined.

(** C6, as the code has it: in a run that finds four test files, the lines
    printed once the loop is over are the rule, the needs-fix count and the
    needs-fix paths; the figure four is in none of them.  It was printed
    first, before any file was looked at. *)
Lemma scanner_total_not_in_summary :
  List.length (test_files scan_world scan_dir) = 4%nat /\
  w_stdout (snd (Scanner.find_test_files_with_fetch_mocks scan_dir scan_world)) =
    Scanner.found_line 4 ::
    flat_map (file_lines scan_world) (test_files scan_world scan_dir) ++
    Scanner.summary_lines [s2l "/r/a.test.js"] /\
  Scanner.summary_lines [s2l "/r/a.test.js"] =
    [ 10 :: repeat 61 80; s2l "Files needing fix: 1"; s2l "  - /r/a.test.js" ] /\
  Forall (fun line => ~ occurs (dec 4) line) (Scanner.summary_lines [s2l "/r/a.test.js"]).
Proof.
  split; [reflexivity|]. split; [vm_compute; reflexivity|]. split; [reflexivity|].
  repeat (apply Forall_cons; [apply contains_false; vm_compute; reflexivity|]).
  apply Forall_nil.
Qed.

(** C6, amended.  The Scanner prints the number of test files found first,
    before it processes any file; then the per-file lines; and after
    processing all files a summary made of a rule, the count of files
    needing fix and the list of their paths. *)
Theorem scanner_output (directory : str) (w : world) :
  fst (Scanner.find_test_files_with_fetch_mocks directory w) = Ok tt /\
  w_stdout (snd (Scanner.find_test_files_with_fetch_mocks directory w)) =
    w_stdout w ++
    [ s2l "Found " ++ dec (List.length (test_files w directory)) ++ s2l " test files" ++ [10] ] ++
    flat_map (file_lines w) (test_files w directory) ++
    [ 10 :: repeat 61 80;
      s2l "Files needing fix: " ++
        dec (List.length (filter (needs_fix w) (test_files w directory))) ] ++
    map (fun f => s2l "  - " ++ f) (filter (needs_fix w) (test_files w directory)).
Proof.
  rewrite scanner_run. split; [reflexivity|]. cbn [snd].
  now destruct (put_lines_frame
    (Scanner.found_line (List.length (test_files w directory)) ::
     flat_map (file_lines w) (test_files w directory) ++
     Scanner.summary_lines (filter (needs_fix w) (test_files w directory))) w)
    as [_ [_ [_ [_ ->]]]].
Qed.

(** C7.  A file whose text does not contain [global.fetch] is not put on
    the needs-fix list and nothing is printed for it: the world after the
    loop body is the world before it. *)
Theorem scanner_no_marker_silent (w : world) (filepath raw : str) (acc : list str) :
  w_store w filepath = FText raw ->
  ~ occurs (s2l "global.fetch") (Py.universal_newlines raw) ->
  Scanner.check_file filepath acc w = (Ok acc, w) /\
  needs_fix w filepath = false /\
  file_lines w filepath = [].
Proof.
  intros Hs Hm. apply contains_false in Hm. fold Scanner.marker in Hm.
  assert (Hn : needs_fix w filepath = false)
    by (unfold needs_fix; rewrite Hs; cbv zeta; now rewrite Hm).
  assert (Hl : file_lines w filepath = [])
    by (unfold file_lines; rewrite Hs; cbv zeta; now rewrite Hm).
  rewrite check_file_run, Hn, Hl. now repeat split.
Qed.

Lemma scanner_no_marker_silent_witness :
  Scanner.check_file (s2l "/r/d.test.js") [] scan_world = (Ok [], scan_world) /\
  needs_fix scan_world (s2l "/r/d.test.js") = false /\
  file_lines scan_world (s2l "/r/d.test.js") = [].
Proof.
  apply (scanner_no_marker_silent scan_world (s2l "/r/d.test.js")
           (s2l "it('renders', () => {})") []).
  - reflexivity.
  - apply contains_false. vm_compute. reflexivity.
Defined.

(** C8.  The Scanner modifies no file: after a run over any directory of
    any world, every path holds what it held before, nothing has been
    written, and only the console has grown. *)
Theorem scanner_read_only (directory : str) (w : world) :
  w_store (snd (Scanner.find_test_files_with_fetch_mocks directory w)) = w_store w /\
  w_writes (snd (Scanner.find_test_files_with_fetch_mocks directory w)) = w_writes w /\
  w_listing (snd (Scanner.find_test_files_with_fetch_mocks directory w)) = w_listing w /\
  w_write_error (snd (Scanner.find_test_files_with_fetch_mocks directory w)) = w_write_error w /\
  exists lines,
    w_stdout (snd (Scanner.find_test_files_with_fetch_mocks directory w)) = w_stdout w ++ lines.
Proof.
  rewrite scanner_run. cbn [snd].
  destruct (put_lines_frame
    (Scanner.found_line (List.length (test_files w directory)) ::
     flat_map (file_lines w) (test_files w directory) ++
     Scanner.summary_lines (filter (needs_fix w) (test_files w directory))) w)
    as [H1 [H2 [H3 [H4 H5]]]].
  repeat split; auto. eexists. exact H5.
Qed.

(** C9.  The legacy pattern cannot cross a closing brace.  If in every way
    of finding [Promise.resolve(], white space, an opening brace and later
    [json:] in the text there is a closing brace between that opening brace
    and [json:], the pattern does not match and the file is not put on the
    needs-fix list, whether or not [headers:] occurs in it. *)
Theorem scanner_regex_stops_at_brace (content : str) :
  (forall u ws mid v,
     content = u ++ s2l "Promise.resolve(" ++ ws ++ s2l "{" ++ mid ++ s2l "json:" ++ v ->
     all_space ws -> In 125 mid) ->
  Re.search (s2l "Promise\.resolve\(\s*\{[^}]*json:") content = Some false /\
  forall (w : world) (filepath raw : str) (acc : list str),
    w_store w filepath = FText raw -> Py.universal_newlines raw = content ->
    fst (Scanner.check_file filepath acc w) = Ok acc.
Proof.
  intros H.
  assert (E : Re.search_c legacy_c content = false).
  { apply not_true_is_false. intros Ht. apply legacy_search_spec in Ht.
    destruct Ht as [u [ws [mid [v [Hc [Hws Hmid]]]]]]. apply Hmid.
    now apply (H u ws mid v). }
  split.
  - change (s2l "Promise\.resolve\(\s*\{[^}]*json:") with Scanner.legacy_pattern.
    rewrite legacy_search. now f_equal.
  - intros w filepath raw acc Hs Hr. rewrite check_file_run. cbn [fst].
    unfold needs_fix. rewrite Hs. cbv zeta. rewrite Hr, E.
    now rewrite andb_false_r.
Qed.

Lemma nested_mock_no_shape :
  forall u ws mid v,
    nested_mock = u ++ s2l "Promise.resolve(" ++ ws ++ s2l "{" ++ mid ++ s2l "json:" ++ v ->
    all_space ws -> In 125 mid.
Proof.
  intros u ws mid v E Hws.
  destruct (in_dec N.eq_dec 125 mid) as [Hin | Hout]; [exact Hin | exfalso].
  assert (Hs : legacy_shape nested_mock) by (exists u, ws, mid, v; auto).
  apply legacy_search_spec in Hs. vm_compute in Hs. discriminate.
Qed.

Lemma scanner_regex_stops_at_brace_witness :
  Py.contains (s2l "headers:") nested_mock = false /\
  Re.search (s2l "Promise\.resolve\(\s*\{[^}]*json:") nested_mock = Some false /\
  forall (w : world) (filepath raw : str) (acc : list str),
    w_store w filepath = FText raw -> Py.universal_newlines raw = nested_mock ->
    fst (Scanner.check_file filepath acc w) = Ok acc.
Proof.
  split; [reflexivity|].
  apply (scanner_regex_stops_at_brace nested_mock nested_mock_no_shape).
Defined.

(** * Further properties *)

(** ** Which files the Scanner looks at *)

Lemma endswith_spec (suf s : str) :
  Py.endswith suf s = true <-> exists t, s = t ++ suf.
Proof.
  unfold Py.endswith. rewrite startswith_spec. split.
  - intros [t H]. exists (rev t).
    rewrite <- (rev_involutive s), H, rev_app_distr, rev_involutive. reflexivity.
  - intros [t ->]. exists (rev t). apply rev_app_distr.
Qed.

Lemma os_path_join_ends (a b : str) : exists t, Py.os_path_join a b = t ++ b.
Proof.
  unfold Py.os_path_join. destruct (Py.startswith [47] b); [now exists []|].
  destruct (rev a) as [|l ?]; [now exists []|].
  destruct (l =? 47); [now exists a|].
  exists (a ++ [47]). now rewrite <- app_assoc.
Qed.

Lemma is_test_file_spec (name : str) :
  Scanner.is_test_file name = true <->
  (exists t, name = t ++ s2l ".test.js") \/ (exists t, name = t ++ s2l ".test.jsx").
Proof.
  unfold Scanner.is_test_file, Py.endswith_any. simpl existsb.
  rewrite orb_false_r, orb_true_iff, !endswith_spec. reflexivity.
Qed.

Lemma collect_spec (walked : list (str * list str * list str)) (p : str) :
  In p (Scanner.collect walked) <->
  exists root dirs files name,
    In (root, dirs, files) walked /\ In name files /\
    Scanner.is_test_file name = true /\ p = Py.os_path_join root name.
Proof.
  unfold Scanner.collect. rewrite in_flat_map. split.
  - intros [[[root dirs] files] [Hw Hp]]. apply in_map_iff in Hp as [name [<- Hn]].
    apply filter_In in Hn as [Hn Ht]. now exists root, dirs, files, name.
  - intros [root [dirs [files [name [Hw [Hn [Ht ->]]]]]]].
    exists (root, dirs, files). split; [exact Hw|].
    apply in_map. now apply filter_In.
Qed.

Lemma file_names_spec (es : list dirent) (n : str) :
  In n (file_names es) <-> In (EFile n) es.
Proof.
  unfold file_names. rewrite in_flat_map. split.
  - intros [[m | d ch] [He Hn]]; simpl in Hn; [|contradiction].
    destruct Hn as [<- | []]. exact He.
  - intros H. exists (EFile n). split; [exact H | now left].
Qed.

Lemma dirent_forall (Q : dirent -> Prop) :
  (forall n, Q (EFile n)) ->
  (forall n children, Forall Q children -> Q (EDir n children)) ->
  forall e, Q e.
Proof.
  intros Hf Hd. fix IH 1. intros [n | n children].
  - apply Hf.
  - apply Hd. induction children as [|c children IHc]; constructor.
    + apply IH.
    + exact IHc.
Qed.

Lemma walk_entry_files (e : dirent) :
  forall top root name,
    (exists dirs files, In (root, dirs, files) (walk_entry top e) /\ In name files) <->
    (exists d children, e = EDir d children /\
                        file_in (Py.os_path_join top d) children root name).
Proof.
  induction e as [n | d children IH] using dirent_forall; intros top root name.
  - split.
    + intros [dirs [files [[] _]]].
    + intros [d [children [E _]]]. discriminate.
  - rewrite Forall_forall in IH. split.
    + intros [dirs [files [Hin Hn]]]. exists d, children. split; [reflexivity|].
      simpl in Hin. destruct Hin as [E | Hin].
      * injection E as <- _ <-. apply file_here. now apply file_names_spec.
      * apply in_flat_map in Hin as [e' [He' Hin]].
        destruct (proj1 (IH e' He' (Py.os_path_join top d) root name))
          as [d' [ch' [-> Hf]]]; [eauto|].
        eapply file_below; eauto.
    + intros [d0 [ch0 [E Hf]]]. injection E as <- <-. simpl.
      inversion Hf as [t es n Hn | t es d' ch' r n Hd Hsub]; subst.
      * exists (dir_names children), (file_names children). split; [now left|].
        now apply file_names_spec.
      * destruct (proj2 (IH _ Hd (Py.os_path_join top d) root name)) as [dirs [files [Hin Hn]]];
          [eauto|].
        exists dirs, files. split; [|exact Hn].
        right. apply in_flat_map. eauto.
Qed.

Lemma walk_files (top : str) (entries : list dirent) (root name : str) :
  (exists dirs files, In (root, dirs, files) (walk top entries) /\ In name files) <->
  file_in top entries root name.
Proof.
  unfold walk. split.
  - intros [dirs [files [[E | Hin] Hn]]].
    + injection E as <- _ <-. apply file_here. now apply file_names_spec.
    + apply in_flat_map in Hin as [e [He Hin]].
      destruct (proj1 (walk_entry_files e top root name)) as [d [ch [-> Hf]]]; [eauto|].
      eapply file_below; eauto.
  - intros Hf. inversion Hf as [t es n Hn | t es d ch r n Hd Hsub]; subst.
    + exists (dir_names entries), (file_names entries). split; [now left|].
      now apply file_names_spec.
    + destruct (proj2 (walk_entry_files (EDir d ch) top root name)) as [dirs [files [Hin Hn]]];
        [eauto|].
      exists dirs, files. split; [|exact Hn].
      right. apply in_flat_map. eauto.
Qed.

(** X1.  The files the Scanner opens are exactly the files, at any depth
    below the directory, whose name ends in [.test.js] or [.test.jsx], each
    under the path [os.path.join] makes of its directory and its name. *)
Theorem scanner_collects_test_files (w : world) (directory : str) (entries : list dirent)
    (p : str) :
  w_listing w directory = Some entries ->
  (In p (test_files w directory) <->
   exists root name,
     file_in directory entries root name /\
     ((exists t, name = t ++ s2l ".test.js") \/ (exists t, name = t ++ s2l ".test.jsx")) /\
     p = Py.os_path_join root name).
Proof.
  intros Hl. unfold test_files. rewrite Hl, collect_spec. split.
  - intros [root [dirs [files [name [Hw [Hn [Ht ->]]]]]]]. exists root, name.
    repeat split.
    + apply walk_files. eauto.
    + now apply is_test_file_spec.
  - intros [root [name [Hf [Ht ->]]]].
    apply walk_files in Hf as [dirs [files [Hw Hn]]].
    exists root, dirs, files, name. repeat split; auto. now apply is_test_file_spec.
Qed.

Lemma scanner_collects_test_files_witness :
  In (s2l "/r/sub/b.test.jsx") (test_files scan_world scan_dir) <->
  exists root name,
    file_in scan_dir
      [ EFile (s2l "a.test.js");
        EDir (s2l "sub") [EFile (s2l "b.test.jsx"); EFile (s2l "c.js")];
        EFile (s2l "d.test.js");
        EFile (s2l "e.test.js") ] root name /\
    ((exists t, name = t ++ s2l ".test.js") \/ (exists t, name = t ++ s2l ".test.jsx")) /\
    s2l "/r/sub/b.test.jsx" = Py.os_path_join root name.
Proof.
  apply (scanner_collects_test_files scan_world scan_dir). reflexivity.
Defined.

(** X2.  Every path the Scanner opens, and so every path it reports, ends
    in [.test.js] or [.test.jsx]. *)
Theorem scanner_paths_have_test_suffix (w : world) (directory p : str) :
  In p (test_files w directory) ->
  (exists t, p = t ++ s2l ".test.js") \/ (exists t, p = t ++ s2l ".test.jsx").
Proof.
  unfold test_files. destruct (w_listing w directory) as [entries|]; [|intros []].
  intros H. apply collect_spec in H as [root [dirs [files [name [_ [_ [Ht ->]]]]]]].
  destruct (os_path_join_ends root name) as [u ->].
  apply is_test_file_spec in Ht as [[t ->] | [t ->]]; [left | right];
    exists (u ++ t); now rewrite app_assoc.
Qed.

Lemma scanner_paths_have_test_suffix_witness :
  (exists t, s2l "/r/a.test.js" = t ++ s2l ".test.js") \/
  (exists t, s2l "/r/a.test.js" = t ++ s2l ".test.jsx").
Proof.
  apply (scanner_paths_have_test_suffix scan_world scan_dir (s2l "/r/a.test.js")).
  vm_compute. now left.
Defined.

(** ** What the Scanner reports *)

(** X3.  When the walk finds no test file - the directory cannot be listed,
    or no file below it has a test suffix - the Scanner prints a zero file
    count, the rule and a zero needs-fix count, and nothing else. *)
Theorem scanner_no_test_files (w : world) (directory : str) :
  test_files w directory = [] ->
  Scanner.find_test_files_with_fetch_mocks directory w =
  (Ok tt,
   put_lines [ s2l "Found 0 test files" ++ [10];
               10 :: repeat 61 80;
               s2l "Files needing fix: 0" ] w).
Proof. intros H. rewrite scanner_run, H. reflexivity. Qed.

Lemma scanner_no_test_files_witness :
  Scanner.find_test_files_with_fetch_mocks scan_dir plain_world =
  (Ok tt,
   put_lines [ s2l "Found 0 test files" ++ [10];
               10 :: repeat 61 80;
               s2l "Files needing fix: 0" ] plain_world).
Proof. apply (scanner_no_test_files plain_world scan_dir). reflexivity. Defined.

(** X4.  The paths the Scanner lists at the end of a run are exactly the
    test files it found that could be read and whose text has the marker
    [global.fetch], the legacy pattern and no [headers:]; there are never
    more of them than test files found. *)
Theorem scanner_report_exact (directory : str) (w : world) :
  exists listed before,
    w_stdout (snd (Scanner.find_test_files_with_fetch_mocks directory w)) =
      before ++
      (s2l "Files needing fix: " ++ dec (List.length listed)) ::
      map (fun f => s2l "  - " ++ f) listed /\
    (forall p,
       In p listed <->
       In p (test_files w directory) /\
       exists raw,
         w_store w p = FText raw /\
         occurs (s2l "global.fetch") (Py.universal_newlines raw) /\
         legacy_shape (Py.universal_newlines raw) /\
         ~ occurs (s2l "headers:") (Py.universal_newlines raw)) /\
    (List.length listed <= List.length (test_files w directory))%nat.
Proof.
  exists (filter (needs_fix w) (test_files w directory)).
  exists (w_stdout w ++
          Scanner.found_line (List.length (test_files w directory)) ::
          flat_map (file_lines w) (test_files w directory) ++ [10 :: repeat 61 80]).
  split; [|split].
  - rewrite scanner_run. cbn [snd].
    destruct (put_lines_frame
      (Scanner.found_line (List.length (test_files w directory)) ::
       flat_map (file_lines w) (test_files w directory) ++
       Scanner.summary_lines (filter (needs_fix w) (test_files w directory))) w)
      as [_ [_ [_ [_ ->]]]].
    unfold Scanner.summary_lines. rewrite <- !app_assoc. simpl. rewrite <- app_assoc.
    reflexivity.
  - intros p. rewrite filter_In. split.
    + intros [Hp Hn]. split; [exact Hp|].
      destruct (w_store w p) as [raw | e] eqn:Es.
      * exists raw. split; [reflexivity|]. now apply (needs_fix_spec w p raw Es).
      * unfold needs_fix in Hn. rewrite Es in Hn. discriminate.
    + intros [Hp [raw [Es H]]]. split; [exact Hp|]. now apply (needs_fix_spec w p raw Es).
  - apply filter_length_le.
Qed.

(** ** The Rewriter when the file cannot be read or written *)

Lemma main_read_fail (w : world) (e : str) :
  w_store w Rewriter.test_file = FFail e -> Rewriter.main w = (Raise e, w).
Proof. intros H. unfold Rewriter.main, bind, read_text. now rewrite H. Qed.

Lemma main_write_fail (w : world) (raw e : str) :
  w_store w Rewriter.test_file = FText raw ->
  w_write_error w Rewriter.test_file = Some e ->
  Rewriter.main w = (Raise e, w).
Proof.
  intros Hr Hw. unfold Rewriter.main, bind, read_text. rewrite Hr.
  unfold of_option. rewrite transform_compiled.
  unfold write_text. now rewrite Hw.
Qed.



(** ** One instance of a shape *)

Lemma det_unique (r : Re.regex) :
  det r = true ->
  forall m m' t t', lang r m -> lang r m' -> m ++ t = m' ++ t' -> m = m'.
Proof.
  induction r as [|[c | k] r IH]; intros Hd m m' t t' Hm Hm' E.
  - inversion Hm. inversion Hm'. reflexivity.
  - apply lang_lit_inv in Hm as [m1 [-> Hm]]. apply lang_lit_inv in Hm' as [m1' [-> Hm']].
    injection E as E. f_equal. eapply IH; eauto.
  - simpl in Hd. apply andb_true_iff in Hd as [Hn Hd].
    apply next_not_in_inv in Hn as [c [r' [-> Hc]]].
    apply lang_star_inv in Hm as [ws [m1 [-> [Hws Hm]]]].
    apply lang_star_inv in Hm' as [ws' [m1' [-> [Hws' Hm']]]].
    pose proof Hm as Hm0. pose proof Hm' as Hm0'.
    apply lang_lit_inv in Hm0 as [m2 [-> _]]. apply lang_lit_inv in Hm0' as [m2' [-> _]].
    rewrite <- !app_assoc in E.
    pose proof (span_unique _ _ _ _ _ _ _ Hws Hws' Hc Hc E) as <-.
    apply app_inv_head in E. f_equal. eapply IH; eauto.
Qed.

(** A deterministic pattern matches one of its strings entirely. *)
Lemma match_exact (r : Re.regex) (m o : str) :
  det r = true -> lang r m -> Re.match_here r (m ++ o) = Some o.
Proof.
  intros Hd Hm. pose proof (match_here_complete _ _ Hm o) as Hc.
  destruct (Re.match_here r (m ++ o)) as [t|] eqn:E; [|contradiction].
  destruct (match_here_sound _ _ _ E) as [m' [E' Hm']].
  pose proof (det_unique r Hd m m' o t Hm Hm' E') as <-.
  apply app_inv_head in E'. now subst.
Qed.

Lemma lang_of_match (r : Re.regex) (m : str) :
  Re.match_here r m = Some [] -> lang r m.
Proof.
  intros H. destruct (match_here_sound _ _ _ H) as [m' [E Hm]].
  rewrite app_nil_r in E. now subst.
Qed.

(** In a shaped text a shaped pattern can only match at the start. *)
Lemma search_in_shaped (r : Re.regex) (m : str) :
  pshaped r = true -> shaped m = true ->
  Re.match_here r m = None -> Re.search_c r m = false.
Proof.
  intros Hr Hm E. rewrite <- (app_nil_r m) in E. rewrite <- (app_nil_r m).
  rewrite (search_c_shaped r m [] Hr Hm E). simpl.
  now rewrite (pshaped_starts r [] Hr eq_refl).
Qed.

Lemma sub_c_instance (P : Re.regex) (R m : str) :
  pshaped P = true -> det P = true -> lang P m -> Re.sub_c P R m = R.
Proof.
  intros Hp Hd Hm. pose proof (match_exact P m [] Hd Hm) as E.
  rewrite app_nil_r in E.
  destruct (pshaped_match _ _ _ Hp E) as [_ [_ [_ [_ Hlt]]]].
  rewrite (sub_c_match _ _ _ _ E Hlt), sub_c_nil, app_nil_r; [reflexivity|].
  now apply pshaped_starts.
Qed.

Lemma apply_c_fixed (R : str) (rules : list (Re.regex * str)) :
  shaped R = true ->
  (forall q, In q rules -> pshaped (fst q) = true /\ clash (fst q) (lits R) = true) ->
  apply_c rules R = R.
Proof.
  intros HR H. apply apply_c_no_match, Forall_forall. intros q Hq.
  destruct (H q Hq) as [Hp Hc]. apply search_in_shaped; auto.
  rewrite <- (app_nil_r R). now apply clash_lits.
Qed.

Lemma chain_instance (todo : list (Re.regex * str)) :
  forall pre, splits_ok pre todo = true ->
    (forall q, In q todo -> pshaped (fst q) = true /\ shaped (snd q) = true) ->
    (forall q q', In q todo -> In q' todo -> clash (fst q) (lits (snd q')) = true) ->
    forall q m, In q todo -> det (fst q) = true -> lang (fst q) m ->
      apply_c todo m = snd q.
Proof.
  induction todo as [|[p r] post IH]; intros pre H Hs Hc q m Hq Hd Hm; [contradiction|].
  destruct (Hs (p, r) (or_introl eq_refl)) as [Hp Hr]. simpl in Hp, Hr.
  pose proof H as H'. simpl in H'.
  apply andb_true_iff in H' as [_ H3].
  simpl. destruct Hq as [<- | Hq].
  - simpl in *. rewrite (sub_c_instance p r m Hp Hd Hm).
    apply apply_c_fixed; [exact Hr|].
    intros q Hq. split.
    + apply Hs. now right.
    + apply (Hc q (p, r)); [now right | now left].
  - assert (E : Re.sub_c p r m = m).
    { apply sub_c_no_match.
      destruct (Hs q (or_intror Hq)) as [Hpq _].
      apply search_in_shaped; [exact Hp | now apply (pshaped_lang (fst q)) |].
      destruct (Re.match_here p m) eqn:Em; [exfalso | reflexivity].
      apply (clash_match p (fst q) m).
      - apply (splits_ok_pre _ _ q (p, r) H3 Hq). apply in_or_app. right. now left.
      - congruence.
      - rewrite <- (app_nil_r m). now apply match_here_complete. }
    rewrite E. apply (IH _ H3); auto.
    + intros q0 H0. apply Hs. now right.
    + intros q0 q1 H0 H1. apply Hc; now right.
Qed.

Lemma crules_det : forallb (fun q => det (fst q)) crules = true.
Proof. vm_compute. reflexivity. Qed.

Lemma compile_rules_in (rules : list (str * str)) :
  forall crs p r c, compile_rules rules = Some crs ->
    In (p, r) rules -> Re.compile p = Some c -> In (c, r) crs.
Proof.
  induction rules as [|[p0 r0] rules IH]; intros crs p r c H Hin Hc; [contradiction|].
  simpl in H. destruct (existsb (N.eqb 92) r0); [discriminate|].
  destruct (Re.compile p0) as [c0|] eqn:E0; [|discriminate].
  destruct (compile_rules rules) as [l|]; [|discriminate].
  injection H as <-. destruct Hin as [E | Hin].
  - injection E as -> ->. left. congruence.
  - right. eapply IH; eauto.
Qed.

(** X6.  Each rule rewrites every instance of its shape, whatever white
    space or line breaks stand at the two places where the pattern allows
    them: a text that is one string of a rule's pattern comes out of the
    whole rule list as that rule's replacement, exactly. *)
Theorem rewriter_rewrites_instance (pattern replacement : str) (c : Re.regex) (m : str) :
  In (pattern, replacement) Rewriter.replacements ->
  Re.compile pattern = Some c ->
  lang c m ->
  Rewriter.transform m = Some replacement.
Proof.
  intros Hin Hc Hm. rewrite transform_compiled. f_equal.
  pose proof (compile_rules_in _ _ _ _ _ replacements_compile Hin Hc) as Hq.
  destruct crules_facts as [Hs [Hcl Hsp]].
  pose proof crules_det as Hd. rewrite forallb_forall in Hd.
  apply (chain_instance crules [] Hsp Hs Hcl (c, replacement) m Hq); [|exact Hm].
  now apply (Hd (c, replacement)).
Qed.

Lemma rewriter_rewrites_instance_witness :
  Rewriter.transform
    (s2l "expect(apiRequest).toHaveBeenCalledWith('/weather/hourly/Boston', {" ++
     [10; 32; 32; 32; 32] ++ s2l "params: { hours: 48 }," ++ [10; 32; 32] ++ s2l "});")
  = Some (s2l "expect(apiRequest).toHaveBeenCalledWith('/weather/hourly/Boston?hours=48', { method: 'GET' });").
Proof.
  apply (rewriter_rewrites_instance
    (s2l "expect\(apiRequest\)\.toHaveBeenCalledWith\('/weather/hourly/Boston', \{\s*params: \{ hours: 48 \},\s*\}\);")
    (s2l "expect(apiRequest).toHaveBeenCalledWith('/weather/hourly/Boston?hours=48', { method: 'GET' });")
    (lits (s2l "expect(apiRequest).toHaveBeenCalledWith('/weather/hourly/Boston', {") ++
     Re.Star Re.CSpace :: lits (s2l "params: { hours: 48 },") ++
     Re.Star Re.CSpace :: lits (s2l "});"))).
  - now left.
  - vm_compute. reflexivity.
  - apply lang_of_match. vm_compute. reflexivity.
Defined.

(** ** Characters and line endings *)

Lemma sub_from_chars (r : Re.regex) (repl : str) (c : char) :
  forall fuel s, In c (Re.sub_from fuel r repl s) -> In c s \/ In c repl.
Proof.
  induction fuel as [|fuel IH]; intros s H; [now left|].
  rewrite sub_from_S in H.
  assert (Hcopy : In c match s with
                       | [] => []
                       | a :: s' => a :: Re.sub_from fuel r repl s'
                       end -> In c s \/ In c repl).
  { destruct s as [|a s]; [intros []|]. intros [-> | Hin]; [left; now left|].
    destruct (IH _ Hin) as [H1 | H1]; [left; now right | now right]. }
  destruct (Re.match_here r s) as [t|] eqn:E; [|now apply Hcopy].
  destruct (List.length t <? List.length s)%nat.
  - apply in_app_or in H as [H | H]; [now right|].
    destruct (IH _ H) as [H1 | H1]; [|now right].
    left. destruct (match_here_sound _ _ _ E) as [m [-> _]]. apply in_or_app. now right.
  - apply in_app_or in H as [H | H]; [now right | now apply Hcopy].
Qed.

Lemma apply_c_chars (c : char) (rules : list (Re.regex * str)) :
  forall s, In c (apply_c rules s) -> In c s \/ exists q, In q rules /\ In c (snd q).
Proof.
  induction rules as [|[p r] rules IH]; intros s H; [now left|].
  simpl in H. destruct (IH _ H) as [H1 | [q [Hq H1]]].
  - destruct (sub_from_chars _ _ _ _ _ H1) as [H2 | H2]; [now left|].
    right. exists (p, r). split; [now left | exact H2].
  - right. exists q. split; [now right | exact H1].
Qed.

Lemma universal_newlines_no_cr_n (n : nat) :
  forall s, (List.length s <= n)%nat -> ~ In 13 (Py.universal_newlines s).
Proof.
  induction n as [|n IH]; intros [|c s] Hlen; try (intros []); [simpl in Hlen; lia|].
  simpl in Hlen. simpl. destruct (N.eqb_spec c 13) as [->|Hc].
  - destruct s as [|d s]; [intros [E | []]; discriminate|].
    simpl in Hlen.
    destruct (d =? 10); intros [E | H]; try discriminate;
      revert H; apply IH; simpl; lia.
  - intros [E | H]; [congruence|]. revert H. apply IH. lia.
Qed.

Lemma universal_newlines_no_cr (s : str) : ~ In 13 (Py.universal_newlines s).
Proof. now apply (universal_newlines_no_cr_n (List.length s)). Qed.

Lemma crules_no_cr : forallb (fun q => negb (existsb (N.eqb 13) (snd q))) crules = true.
Proof. vm_compute. reflexivity. Qed.

Lemma transform_no_cr (t : str) : ~ In 13 t -> ~ In 13 (apply_c crules t).
Proof.
  intros Ht H. apply apply_c_chars in H as [H | [q [Hq H]]]; [contradiction|].
  pose proof crules_no_cr as Hn. rewrite forallb_forall in Hn.
  specialize (Hn q Hq). apply negb_true_iff in Hn.
  assert (Hy : existsb (N.eqb 13) (snd q) = true).
  { apply existsb_exists. exists 13. split; [exact H | reflexivity]. }
  exact (eq_true_false_abs _ Hy Hn).
Qed.

(** X7.  After a successful run the target file holds no carriage return:
    whatever line endings the file had, it ends up with line feeds only. *)
Theorem rewriter_normalises_line_endings (w : world) (raw : str) :
  w_store w Rewriter.test_file = FText raw ->
  w_write_error w Rewriter.test_file = None ->
  exists t', w_store (snd (Rewriter.main w)) Rewriter.test_file = FText t' /\ ~ In 13 t'.
Proof.
  intros Hr Hw. exists (apply_c crules (Py.universal_newlines raw)).
  rewrite (rewriter_main_run w raw Hr Hw). cbn [snd]. split.
  - destruct (put_lines_frame Rewriter.report_lines
                (put_file Rewriter.test_file (apply_c crules (Py.universal_newlines raw)) w))
      as [_ [-> _]].
    apply put_file_store.
  - apply transform_no_cr, universal_newlines_no_cr.
Qed.

Lemma rewriter_normalises_line_endings_witness :
  exists t', w_store (snd (Rewriter.main crlf_world)) Rewriter.test_file = FText t' /\ ~ In 13 t'.
Proof.
  apply (rewriter_normalises_line_endings crlf_world crlf_raw); reflexivity.
Defined.

(** X8.  Running the Rewriter a second time changes nothing: the second run
    succeeds, writes the text the first run wrote and leaves the file as
    the first run left it. *)
Theorem rewriter_second_run (w : world) (raw : str) :
  w_store w Rewriter.test_file = FText raw ->
  w_write_error w Rewriter.test_file = None ->
  exists t',
    w_store (snd (Rewriter.main w)) Rewriter.test_file = FText t' /\
    fst (Rewriter.main (snd (Rewriter.main w))) = Ok tt /\
    w_store (snd (Rewriter.main (snd (Rewriter.main w)))) Rewriter.test_file = FText t' /\
    w_writes (snd (Rewriter.main (snd (Rewriter.main w)))) =
      w_writes w ++ [(Rewriter.test_file, t'); (Rewriter.test_file, t')].
Proof.
  intros Hr Hw. set (t' := apply_c crules (Py.universal_newlines raw)).
  exists t'. rewrite (rewriter_main_run w raw Hr Hw). cbn [snd]. fold t'.
  set (w1 := put_lines Rewriter.report_lines (put_file Rewriter.test_file t' w)).
  destruct (put_lines_frame Rewriter.report_lines (put_file Rewriter.test_file t' w))
    as [_ [Hs1 [He1 [Hw1 _]]]]. fold w1 in Hs1, He1, Hw1.
  assert (Hr1 : w_store w1 Rewriter.test_file = FText t')
    by (rewrite Hs1; apply put_file_store).
  assert (Hwe1 : w_write_error w1 Rewriter.test_file = None) by (rewrite He1; exact Hw).
  assert (Hfix : apply_c crules (Py.universal_newlines t') = t').
  { rewrite universal_newlines_id
      by (apply transform_no_cr, universal_newlines_no_cr).
    apply apply_c_no_match, transform_no_residual. }
  rewrite (rewriter_main_run w1 t' Hr1 Hwe1), Hfix. cbn [fst snd].
  destruct (put_lines_frame Rewriter.report_lines (put_file Rewriter.test_file t' w1))
    as [_ [Hs2 [_ [Hw2 _]]]].
  rewrite Hs2, Hw2. split; [exact Hr1 | split; [reflexivity | split]].
  - apply put_file_store.
  - cbn [put_file w_writes]. rewrite Hw1. cbn [put_file w_writes].
    now rewrite <- app_assoc.
Qed.

Lemma rewriter_second_run_witness :
  exists t',
    w_store (snd (Rewriter.main crlf_world)) Rewriter.test_file = FText t' /\
    fst (Rewriter.main (snd (Rewriter.main crlf_world))) = Ok tt /\
    w_store (snd (Rewriter.main (snd (Rewriter.main crlf_world)))) Rewriter.test_file = FText t' /\
    w_writes (snd (Rewriter.main (snd (Rewriter.main crlf_world)))) =
      w_writes crlf_world ++ [(Rewriter.test_file, t'); (Rewriter.test_file, t')].
Proof.
  apply (rewriter_second_run crlf_world crlf_raw); reflexivity.
Defined.

(** X9.  The report does not depend on what the rules did: every run that
    reads and writes the file prints the same two lines, the second one
    with the length of the rule list, ten. *)
Theorem rewriter_report_fixed (w : world) (raw : str) :
  w_store w Rewriter.test_file = FText raw ->
  w_write_error w Rewriter.test_file = None ->
  fst (Rewriter.main w) = Ok tt /\
  w_stdout (snd (Rewriter.main w)) =
    w_stdout w ++ [ 9989 :: s2l " Fixed weatherApi.test.js expectations!";
                    s2l "Applied 10 replacements" ].
Proof.
  intros Hr Hw. rewrite (rewriter_main_run w raw Hr Hw). cbn [fst snd].
  split; [reflexivity|].
  now destruct (put_lines_frame Rewriter.report_lines
    (put_file Rewriter.test_file (apply_c crules (Py.universal_newlines raw)) w))
    as [_ [_ [_ [_ ->]]]].
Qed.

Lemma rewriter_report_fixed_witness :
  fst (Rewriter.main (mkWorld (fun _ => None) (fun _ => FText sample_text)
                              (fun _ => None) [] [])) = Ok tt /\
  w_stdout (snd (Rewriter.main (mkWorld (fun _ => None) (fun _ => FText sample_text)
                                        (fun _ => None) [] []))) =
    [] ++ [ 9989 :: s2l " Fixed weatherApi.test.js expectations!";
            s2l "Applied 10 replacements" ].
Proof.
  apply (rewriter_report_fixed
           (mkWorld (fun _ => None) (fun _ => FText sample_text) (fun _ => None) [] [])
           sample_text); reflexivity.
Defined.

(** ** Text without assertions on [apiRequest] *)

Lemma search_c_prefix (l : str) (r : Re.regex) (s : str) :
  Re.search_c (lits l ++ r) s = true -> occurs l s.
Proof.
  intros H. apply search_c_spec in H as [u [m [v [-> Hm]]]].
  apply lang_lits_app in Hm as [m' [-> _]].
  exists u, (m' ++ v). now rewrite <- app_assoc.
Qed.

Lemma crules_prefix :
  Forall (fun q : Re.regex * str =>
            @fst Re.regex str q
            = lits call_prefix ++ skipn (List.length call_prefix) (@fst Re.regex str q))
         crules.
Proof. repeat (apply Forall_cons; [vm_compute; reflexivity|]). apply Forall_nil. Qed.

(** X10.  A text in which [expect(apiRequest).toHaveBeenCalledWith('] does
    not occur goes through the whole rule list unchanged. *)
Theorem rewriter_ignores_other_text (t : str) :
  ~ occurs (s2l "expect(apiRequest).toHaveBeenCalledWith('") t ->
  Rewriter.transform t = Some t.
Proof.
  intros H. rewrite transform_compiled. f_equal.
  apply apply_c_no_match. pose proof crules_prefix as Hp.
  rewrite Forall_forall in *. intros q Hq.
  apply not_true_is_false. intros Hs. apply H.
  pose proof (Hp q Hq) as Hq'. cbv beta in Hq'.
  rewrite Hq' in Hs. now apply search_c_prefix in Hs.
Qed.

Lemma rewriter_ignores_other_text_witness :
  Rewriter.transform (s2l "expect(fetchWeather).toHaveBeenCalledWith('/health');")
  = Some (s2l "expect(fetchWeather).toHaveBeenCalledWith('/health');").
Proof.
  apply (rewriter_ignores_other_text (s2l "expect(fetchWeather).toHaveBeenCalledWith('/health');")).
  apply contains_false. vm_compute. reflexivity.
Defined.

(** ** The order of the rules *)

Lemma sub_c_nox (r : Re.regex) (repl m o : str) :
  pshaped r = true -> nox m = true -> last m cx <> ce ->
  Re.sub_c r repl (m ++ o) = m ++ Re.sub_c r repl o.
Proof.
  intros Hr. induction m as [|c m IH]; intros Hn Hl; [reflexivity|].
  change ((c :: m) ++ o) with (c :: (m ++ o)).
  assert (E : Re.match_here r (c :: m ++ o) = None).
  { apply pshaped_starts; [exact Hr|].
    destruct m as [|d m]; simpl.
    - simpl in Hl. apply N.eqb_neq in Hl. rewrite Hl. now destruct o.
    - apply nox_tail in Hn. simpl in Hn. apply andb_true_iff in Hn as [Hd _].
      apply negb_true_iff in Hd. rewrite Hd. apply andb_false_r. }
  rewrite (sub_c_skip _ _ _ _ E).
  change ((c :: m) ++ Re.sub_c r repl o) with (c :: (m ++ Re.sub_c r repl o)).
  f_equal. apply IH; [now apply nox_tail in Hn|].
  destruct m as [|d m]; [discriminate | exact Hl].
Qed.

(** A shaped stretch of text at which the pattern does not match is copied. *)
Lemma sub_c_shaped (r : Re.regex) (repl m o : str) :
  pshaped r = true -> shaped m = true -> Re.match_here r (m ++ o) = None ->
  Re.sub_c r repl (m ++ o) = m ++ Re.sub_c r repl o.
Proof.
  intros Hr Hm E. apply shaped_inv in Hm as [m' [-> [Hn Hl]]].
  change ((ce :: cx :: m') ++ o) with (ce :: cx :: (m' ++ o)) in *.
  rewrite (sub_c_skip _ _ _ _ E).
  rewrite sub_c_skip by (apply pshaped_starts; [exact Hr | now destruct (m' ++ o)]).
  now rewrite sub_c_nox.
Qed.

Section TwoRules.

Variables (P : Re.regex) (R : str) (P' : Re.regex) (R' : str).
Hypothesis P_shaped : pshaped P = true.
Hypothesis P_det : det P = true.
Hypothesis R_shaped : shaped R = true.
Hypothesis P'_shaped : pshaped P' = true.
Hypothesis apart : forall s, Re.match_here P s <> None -> Re.match_here P' s <> None -> False.
Hypothesis P'_not_R : forall o, Re.match_here P' (R ++ o) = None.

(** Where [P] matches, both orders replace the match and go on after it. *)
Lemma commute_at_match (s t1 : str) :
  Re.match_here P s = Some t1 ->
  Re.sub_c P R (Re.sub_c P' R' s) = R ++ Re.sub_c P R (Re.sub_c P' R' t1) /\
  Re.sub_c P' R' (Re.sub_c P R s) = R ++ Re.sub_c P' R' (Re.sub_c P R t1) /\
  (List.length t1 < List.length s)%nat.
Proof.
  intros E. destruct (pshaped_match _ _ _ P_shaped E) as [M [-> [HL [HM Hlt]]]].
  assert (E' : Re.match_here P' (M ++ t1) = None).
  { destruct (Re.match_here P' (M ++ t1)) eqn:E'; [exfalso | reflexivity].
    apply (apart (M ++ t1)); congruence. }
  split; [|split; [|exact Hlt]].
  - rewrite (sub_c_shaped P' R' M t1 P'_shaped HM E').
    pose proof (match_exact P M (Re.sub_c P' R' t1) P_det HL) as Em.
    rewrite (sub_c_match _ _ _ _ Em); [reflexivity|].
    apply shaped_inv in HM as [m' [-> _]]. rewrite length_app. simpl. lia.
  - rewrite (sub_c_match _ _ _ _ E Hlt).
    now rewrite (sub_c_shaped P' R' R _ P'_shaped R_shaped (P'_not_R _)).
Qed.

End TwoRules.

Lemma sub_c_commute_n (P : Re.regex) (R : str) (P' : Re.regex) (R' : str) (n : nat) :
  pshaped P = true -> det P = true -> shaped R = true ->
  pshaped P' = true -> det P' = true -> shaped R' = true ->
  clash P P' = true -> clash P' (lits R) = true -> clash P (lits R') = true ->
  forall s, (List.length s <= n)%nat ->
    Re.sub_c P R (Re.sub_c P' R' s) = Re.sub_c P' R' (Re.sub_c P R s).
Proof.
  intros HP HdP HR HP' HdP' HR' Hc HcR HcR'.
  assert (Hap : forall s, Re.match_here P s <> None -> Re.match_here P' s <> None -> False)
    by (intros s; now apply clash_match).
  assert (Hap' : forall s, Re.match_here P' s <> None -> Re.match_here P s <> None -> False)
    by (intros s H1 H2; now apply (Hap s)).
  induction n as [|n IH]; intros s Hlen.
  - destruct s; [|simpl in Hlen; lia].
    now rewrite !(sub_c_empty _ _) by assumption.
  - destruct s as [|a s]; [now rewrite !(sub_c_empty _ _) by assumption|].
    destruct (Re.match_here P (a :: s)) as [t1|] eqn:E.
    + destruct (commute_at_match P R P' R' HP HdP HR HP' Hap
                  (fun o => clash_lits P' R o HcR) _ _ E) as [-> [-> Hlt]].
      f_equal. apply IH. simpl in *. lia.
    + destruct (Re.match_here P' (a :: s)) as [t1|] eqn:E'.
      * destruct (commute_at_match P' R' P R HP' HdP' HR' HP Hap'
                    (fun o => clash_lits P R' o HcR') _ _ E') as [-> [-> Hlt]].
        f_equal. apply IH. simpl in *. lia.
      * assert (N1 : Re.match_here P (Re.sub_c P' R' (a :: s)) = None).
        { destruct (Re.match_here P (Re.sub_c P' R' (a :: s))) eqn:N1; [exfalso | reflexivity].
          apply (match_back P' R' HP' HR' P HP (a :: s) E'); congruence. }
        assert (N2 : Re.match_here P' (Re.sub_c P R (a :: s)) = None).
        { destruct (Re.match_here P' (Re.sub_c P R (a :: s))) eqn:N2; [exfalso | reflexivity].
          apply (match_back P R HP HR P' HP' (a :: s) E); congruence. }
        rewrite (sub_c_skip _ _ _ _ E') in *. rewrite (sub_c_skip _ _ _ _ E) in *.
        rewrite (sub_c_skip _ _ _ _ N1), (sub_c_skip _ _ _ _ N2).
        f_equal. apply IH. simpl in *. lia.
Qed.

Lemma pairs_commute_in (rules : list (Re.regex * str)) :
  pairs_commute rules = true ->
  forall q q', In q rules -> In q' rules ->
    q = q' \/ commuting q q' = true \/ commuting q' q = true.
Proof.
  induction rules as [|x rules IH]; intros H q q' Hq Hq'; [contradiction|].
  simpl in H. apply andb_true_iff in H as [Hx Hr]. rewrite forallb_forall in Hx.
  destruct Hq as [<- | Hq], Hq' as [<- | Hq'].
  - now left.
  - right. left. now apply Hx.
  - right. right. now apply Hx.
  - now apply IH.
Qed.

Lemma apply_c_perm (l l' : list (Re.regex * str)) :
  Permutation l l' ->
  (forall q q', In q l -> In q' l ->
     forall s, Re.sub_c (fst q) (snd q) (Re.sub_c (fst q') (snd q') s)
             = Re.sub_c (fst q') (snd q') (Re.sub_c (fst q) (snd q) s)) ->
  forall s, apply_c l s = apply_c l' s.
Proof.
  induction 1 as [| [p r] l l' Hp IH | [p r] [p' r'] l | l l' l'' H1 IH1 H2 IH2];
    intros Hc s.
  - reflexivity.
  - simpl. apply IH. intros q q' Hq Hq'. apply Hc; now right.
  - simpl. f_equal.
    apply (Hc (p, r) (p', r')); [right; now left | now left].
  - rewrite IH1 by exact Hc. apply IH2.
    intros q q' Hq Hq'.
    apply Hc; apply (Permutation_in _ (Permutation_sym H1)); assumption.
Qed.

Lemma compile_rules_perm (rules rules' : list (str * str)) :
  Permutation rules rules' ->
  forall crs, compile_rules rules = Some crs ->
    exists crs', compile_rules rules' = Some crs' /\ Permutation crs crs'.
Proof.
  induction 1 as [| [p r] l l' Hp IH | [p r] [p' r'] l | l l' l'' H1 IH1 H2 IH2];
    intros crs H.
  - exists crs. split; [exact H | apply Permutation_refl].
  - simpl in *. destruct (existsb (N.eqb 92) r); [discriminate|].
    destruct (Re.compile p) as [c|]; [|discriminate].
    destruct (compile_rules l) as [cl|]; [|discriminate].
    injection H as <-. destruct (IH cl eq_refl) as [cl' [-> Hperm]].
    eexists. split; [reflexivity | now constructor].
  - simpl in *. destruct (existsb (N.eqb 92) r'); [discriminate|].
    destruct (Re.compile p') as [c'|]; [|discriminate].
    destruct (existsb (N.eqb 92) r); [discriminate|].
    destruct (Re.compile p) as [c|]; [|discriminate].
    destruct (compile_rules l) as [cl|]; [|discriminate].
    injection H as <-. eexists. split; [reflexivity | constructor].
  - destruct (IH1 _ H) as [c1 [E1 P1]]. destruct (IH2 _ E1) as [c2 [E2 P2]].
    exists c2. split; [exact E2 | eapply Permutation_trans; eauto].
Qed.

Lemma crules_commute : pairs_commute crules = true.
Proof. vm_compute. reflexivity. Qed.

Lemma crules_sub_commute (q q' : Re.regex * str) (s : str) :
  In q crules -> In q' crules ->
  Re.sub_c (fst q) (snd q) (Re.sub_c (fst q') (snd q') s)
  = Re.sub_c (fst q') (snd q') (Re.sub_c (fst q) (snd q) s).
Proof.
  intros Hq Hq'. destruct crules_facts as [Hs _].
  pose proof crules_det as Hd. rewrite forallb_forall in Hd.
  destruct (Hs q Hq) as [Hp Hr]. destruct (Hs q' Hq') as [Hp' Hr'].
  assert (G : forall a b, In a crules -> In b crules -> commuting a b = true ->
            Re.sub_c (fst a) (snd a) (Re.sub_c (fst b) (snd b) s)
            = Re.sub_c (fst b) (snd b) (Re.sub_c (fst a) (snd a) s)).
  { intros a b Ha Hb Hab. unfold commuting in Hab.
    apply andb_true_iff in Hab as [Hab H3]. apply andb_true_iff in Hab as [H1 H2].
    destruct (Hs a Ha) as [Hpa Hra]. destruct (Hs b Hb) as [Hpb Hrb].
    pose proof (Hd a Ha) as Hda. pose proof (Hd b Hb) as Hdb. cbv beta in Hda, Hdb.
    apply (sub_c_commute_n (fst a) (snd a) (fst b) (snd b) (List.length s)); auto. }
  destruct (pairs_commute_in crules crules_commute q q' Hq Hq') as [<- | [H | H]].
  - reflexivity.
  - now apply G.
  - symmetry. now apply G.
Qed.

(** X11.  The order of the rules does not matter: applying the ten rules
    in any other order gives, for every text, the text the Rewriter gives. *)
Theorem rewriter_order_independent (rules : list (str * str)) (t : str) :
  Permutation Rewriter.replacements rules ->
  Rewriter.apply_rules rules t = Rewriter.transform t.
Proof.
  intros Hp.
  destruct (compile_rules_perm _ _ Hp _ replacements_compile) as [crs [Hc Hperm]].
  rewrite (apply_rules_compiled _ _ t Hc), transform_compiled. f_equal.
  symmetry. apply (apply_c_perm crules crs Hperm).
  intros q q' Hq Hq' s. now apply crules_sub_commute.
Qed.

Lemma rewriter_order_independent_witness :
  Rewriter.apply_rules (rev Rewriter.replacements) sample_text
  = Rewriter.transform sample_text.
Proof.
  apply (rewriter_order_independent (rev Rewriter.replacements) sample_text).
  apply Permutation_rev.
Defined.

(** ** What the two tools leave alone *)

Lemma str_eqb_neq (a b : str) : a <> b -> str_eqb a b = false.
Proof. intros H. unfold str_eqb. now destruct (list_eq_dec N.eq_dec a b). Qed.

(** X12.  The Rewriter touches no file but its target: whether the run
    succeeds or ends in a read or write error, every other path holds
    afterwards what it held before. *)
Theorem rewriter_touches_only_target (w : world) (p : str) :
  p <> Rewriter.test_file ->
  w_store (snd (Rewriter.main w)) p = w_store w p.
Proof.
  intros Hp. destruct (w_store w Rewriter.test_file) as [raw | e] eqn:Hr.
  - destruct (w_write_error w Rewriter.test_file) as [e|] eqn:Hw.
    + now rewrite (main_write_fail w raw e Hr Hw).
    + rewrite (rewriter_main_run w raw Hr Hw). cbn [snd].
      destruct (put_lines_frame Rewriter.report_lines
                  (put_file Rewriter.test_file (apply_c crules (Py.universal_newlines raw)) w))
        as [_ [-> _]].
      unfold put_file. cbn [w_store]. now rewrite (str_eqb_neq _ _ Hp).
  - now rewrite (main_read_fail w e Hr).
Qed.

Lemma rewriter_touches_only_target_witness :
  w_store (snd (Rewriter.main crlf_world)) (s2l "/tmp/other.js")
  = w_store crlf_world (s2l "/tmp/other.js").
Proof.
  apply (rewriter_touches_only_target crlf_world (s2l "/tmp/other.js")).
  vm_compute. discriminate.
Defined.

Lemma test_files_put_lines (lines : list str) (w : world) (directory : str) :
  test_files (put_lines lines w) directory = test_files w directory.
Proof.
  unfold test_files. now destruct (put_lines_frame lines w) as [-> _].
Qed.

(** X13.  A scan can be repeated: a second run over the same directory
    prints again exactly the lines the first run printed. *)
Theorem scanner_repeatable (directory : str) (w : world) :
  exists lines,
    w_stdout (snd (Scanner.find_test_files_with_fetch_mocks directory w)) =
      w_stdout w ++ lines /\
    w_stdout (snd (Scanner.find_test_files_with_fetch_mocks directory
                     (snd (Scanner.find_test_files_with_fetch_mocks directory w)))) =
      w_stdout w ++ lines ++ lines.
Proof.
  set (lines := Scanner.found_line (List.length (test_files w directory)) ::
                flat_map (file_lines w) (test_files w directory) ++
                Scanner.summary_lines (filter (needs_fix w) (test_files w directory))).
  exists lines. rewrite (scanner_run directory w). cbn [snd]. fold lines.
  destruct (put_lines_frame lines w) as [_ [_ [_ [_ Ho]]]].
  split; [exact Ho|].
  rewrite scanner_run. cbn [snd]. rewrite test_files_put_lines.
  rewrite (filter_ext (needs_fix (put_lines lines w)) (needs_fix w))
    by (intros a; apply needs_fix_put_lines).
  rewrite (flat_map_ext (file_lines (put_lines lines w)) (file_lines w))
    by (intros a; apply needs_fix_put_lines).
  fold lines.
  destruct (put_lines_frame lines (put_lines lines w)) as [_ [_ [_ [_ ->]]]].
  now rewrite Ho, <- app_assoc.
Qed.
